(** * GenExpr: IR generation for expressions

    A shallow embedding of [lib/IRGen/GenExpr.cpp]: the three expression
    dispatchers ([emitRValue], [emitExplodedRValue], [emitLValue]), the
    opportunistic probe [tryEmitAsLValue], the declaration-reference
    resolver, the memory helpers and the error-recovery synthesizers.

    The lowering context ([IRGenFunction] with its [IRGenModule] and its
    instruction builder) is threaded explicitly as a state; a fatal
    contract violation ([llvm_unreachable], a failed [assert]) ends the
    computation without a state.  Functions that live in other files of
    IRGen are fields of the interface [Externals]. *)

From Stdlib Require Import ZArith List String Bool Lia.
Import ListNotations.

Set Warnings "-register-all".

Local Open Scope string_scope.
Local Open Scope list_scope.

(** ** LLVM-side data *)

(** [llvm::Type], as far as this file builds or names types. *)
Inductive LLVMType : Type :=
| IntegerTy (bits : N)
| FloatingTy (bits : N)
| PointerTo (pointee : LLVMType)      (* Ty->getPointerTo() *)
| NamedTy (id : nat).                 (* any struct or opaque type *)

Definition Int8Ty : LLVMType := IntegerTy 8.
Definition Int64Ty : LLVMType := IntegerTy 64.
Definition Int8PtrTy : LLVMType := PointerTo Int8Ty.   (* IGM.Int8PtrTy *)

(** [llvm::APInt]: a width and the unsigned value held in it. *)
Record APInt : Type := mkAPInt { bitWidth : N; intValue : Z }.

(** [llvm::APFloat]: carried as its bit pattern, never computed with. *)
Record APFloat : Type := mkAPFloat { floatWidth : N; floatBits : Z }.

(** [llvm::Value*]: constants are kept symbolic, everything else is a
    value owned by the code that produced it. *)
Inductive Value : Type :=
| ConstantInt (v : APInt)                 (* ConstantInt::get(Context, APInt) *)
| ConstantFP (v : APFloat)                (* ConstantFP::get(Context, APFloat) *)
| NullValue (ty : LLVMType)               (* Constant::getNullValue(ty) *)
| UndefValue (ty : LLVMType)              (* UndefValue::get(ty) *)
| CastValue (v : Value) (ty : LLVMType)   (* what Builder.CreateBitCast returns *)
| NamedValue (id : nat).                  (* locals, functions, instruction results *)

(** [Builder.getInt8] and [Builder.getInt64] with their wrap-around. *)
Definition getInt8 (z : Z) : Value := ConstantInt (mkAPInt 8 (z mod 2 ^ 8)).
Definition getInt64 (z : Z) : Value := ConstantInt (mkAPInt 64 (z mod 2 ^ 64)).

(** What the builder has been asked to insert, in insertion order. *)
Inductive Instr : Type :=
| BitCastInst (v : Value) (ty : LLVMType)
| MemSetInst (ptr val size : Value) (align : Z) (isVolatile : bool)
| OtherInst (opcode : nat) (operands : list Value).

Definition isMemSet (i : Instr) : bool :=
  match i with MemSetInst _ _ _ _ _ => true | _ => false end.

(** ** The lowering context *)

Definition SourceLoc : Type := nat.

Record Diagnostic : Type := mkDiag { diagLoc : SourceLoc; diagText : string }.

Record IRState : Type := mkState {
  insts : list Instr;          (* instructions inserted through Builder *)
  diags : list Diagnostic;     (* what IGM.unimplemented has reported *)
  globals : list nat           (* declarations the module has materialised *)
}.

Inductive Failure : Type :=
| Unreachable (msg : string)        (* llvm_unreachable(msg) *)
| AssertionFailed (cond : string)   (* assert(cond) *)
| ExplosionUnderflow.               (* claimNext on a drained Explosion *)

Inductive Result (A : Type) : Type :=
| Ok (a : A) (s : IRState)
| Fatal (f : Failure).

Arguments Ok {A} a s.
Arguments Fatal {A} f.

Definition IRGen (A : Type) : Type := IRState -> Result A.

Definition ret {A} (a : A) : IRGen A := fun s => Ok a s.

Definition bind {A B} (m : IRGen A) (k : A -> IRGen B) : IRGen B :=
  fun s => match m s with
           | Ok a s' => k a s'
           | Fatal f => Fatal f
           end.

Declare Scope irgen_scope.
Delimit Scope irgen_scope with irgen.
Notation "x <- m ;; k" := (bind m (fun x => k))
  (at level 100, m at next level, right associativity) : irgen_scope.
Notation "m ;; k" := (bind m (fun _ => k))
  (at level 100, right associativity) : irgen_scope.
Local Open Scope irgen_scope.

Definition llvm_unreachable {A} (msg : string) : IRGen A :=
  fun _ => Fatal (Unreachable msg).

Definition assert (cond : bool) (text : string) : IRGen unit :=
  fun s => if cond then Ok tt s else Fatal (AssertionFailed text).

Definition isFatal {A} (r : Result A) : bool :=
  match r with Fatal _ => true | Ok _ _ => false end.

(** [IGM.unimplemented(loc, message)]: one diagnostic, lowering goes on. *)
Definition recordDiag (loc : SourceLoc) (msg : string) (s : IRState) : IRState :=
  mkState (insts s) (diags s ++ [mkDiag loc msg]) (globals s).

Definition unimplemented (loc : SourceLoc) (msg : string) : IRGen unit :=
  fun s => Ok tt (recordDiag loc msg s).

(** [Builder.CreateBitCast] and [Builder.CreateMemSet]. *)
Definition insert (i : Instr) (s : IRState) : IRState :=
  mkState (insts s ++ [i]) (diags s) (globals s).

Definition CreateBitCast (v : Value) (ty : LLVMType) : IRGen Value :=
  fun s => Ok (CastValue v ty) (insert (BitCastInst v ty) s).

Definition CreateMemSet (ptr val size : Value) (align : Z) (isVolatile : bool)
  : IRGen unit :=
  fun s => Ok tt (insert (MemSetInst ptr val size align isVolatile) s).

(** ** Value containers *)

(** [Address]: a pointer and its alignment. *)
Record Address : Type := mkAddress { getAddress : Value; getAlignment : Z }.

(** Modelled from the spec: [LValue] ([LValue.h] is not part of this
    file): an addressable location, built from an address by
    [emitAddressLValue]. *)
Inductive LValue : Type :=
| AddressLValue (addr : Address).

Definition emitAddressLValue (addr : Address) : LValue := AddressLValue addr.

(** Modelled from the spec: [RValue] ([RValue.h]): exactly one of a scalar
    sequence or a single aggregate address. *)
Inductive RValue : Type :=
| Scalars (vs : list Value)
| Aggregate (addr : Value).

Inductive ExplosionKind : Type := Minimal | Maximal.

(** Modelled from the spec: [Explosion] ([Explosion.h]): an ordered queue
    of scalars tagged with its kind; [add] appends, [claimNext] takes the
    front and underflows on an empty queue. *)
Record Explosion : Type := mkExplosion {
  getKind : ExplosionKind;
  pending : list Value
}.

Definition newExplosion (k : ExplosionKind) : Explosion := mkExplosion k [].

Definition add (ex : Explosion) (v : Value) : Explosion :=
  mkExplosion (getKind ex) (pending ex ++ [v]).

Definition addAll (ex : Explosion) (vs : list Value) : Explosion :=
  mkExplosion (getKind ex) (pending ex ++ vs).

Definition claimNext (ex : Explosion) : IRGen (Value * Explosion) :=
  fun s => match pending ex with
           | v :: rest => Ok (v, mkExplosion (getKind ex) rest) s
           | [] => Fatal ExplosionUnderflow
           end.

Definition empty (ex : Explosion) : bool :=
  match pending ex with [] => true | _ :: _ => false end.

(** One element of an [ExplosionSchema]. *)
Inductive SchemaElement : Type :=
| ScalarElement (ty : LLVMType)
| AggregateElement (ty : LLVMType).

(** [RValueSchema]: how r-values of a type are shaped. *)
Inductive RValueSchema : Type :=
| ScalarSchema (tys : list LLVMType)
| AggregateSchema (ty : LLVMType).

Definition isScalar (schema : RValueSchema) : bool :=
  match schema with ScalarSchema _ => true | AggregateSchema _ => false end.

(** ** The checked AST, as read by this file *)

(** Semantic types: only the two builtin classes the literal emitters
    test for are told apart. *)
Inductive SemType : Type :=
| BuiltinIntegerType (bits : N)
| BuiltinFloatType (bits : N)
| OtherType (id : nat).

Definition isBuiltinIntegerType (t : SemType) : bool :=
  match t with BuiltinIntegerType _ => true | _ => false end.

Definition isBuiltinFloatType (t : SemType) : bool :=
  match t with BuiltinFloatType _ => true | _ => false end.

Inductive ValueKind : Type := RValueKind | LValueKind.

Definition isLValueKind (k : ValueKind) : bool :=
  match k with LValueKind => true | RValueKind => false end.

Module DeclKind.
Inductive t : Type :=
| Extension | Import | TypeAlias | Func | Var | Arg | ElementRef | OneOfElement.
End DeclKind.

(** A [ValueDecl], with the answer of
    [getDeclContext()->isLocalContext()]. *)
Record ValueDecl : Type := mkDecl {
  declKind : DeclKind.t;
  declId : nat;
  isLocalContext : bool
}.

(** The five subclasses of [ApplyExpr]. *)
Module Apply.
Inductive t : Type :=
| Call | Unary | Binary | ConstructorCall | DotSyntaxCall.
End Apply.

(** What every [Expr] node carries. *)
Record ExprInfo : Type := mkInfo {
  infoType : SemType;
  infoValueKind : ValueKind;
  infoLoc : SourceLoc
}.

(** Expression nodes.  [UncheckedExpr] stands for every kind that
    [ExprNodes.def] lists as [UNCHECKED_EXPR]; [TupleExpr] carries the
    answer of [isGroupingParen()] next to its elements. *)
Inductive Expr : Type :=
| IntegerLiteralExpr (i : ExprInfo) (v : APInt)
| FloatLiteralExpr (i : ExprInfo) (v : APFloat)
| LoadExpr (i : ExprInfo) (sub : Expr)
| ApplyExpr (k : Apply.t) (i : ExprInfo) (fn arg : Expr)
| TupleExpr (i : ExprInfo) (grouping : bool) (elements : list Expr)
| TupleElementExpr (i : ExprInfo) (base : Expr) (fieldNo : nat)
| TupleShuffleExpr (i : ExprInfo) (sub : Expr) (mapping : list Z)
| LookThroughOneofExpr (i : ExprInfo) (sub : Expr)
| DeclRefExpr (i : ExprInfo) (D : ValueDecl)
| FuncExpr (i : ExprInfo) (body : nat)
| ClosureExpr (i : ExprInfo) (input : Expr)
| AnonClosureArgExpr (i : ExprInfo) (argNo : nat)
| UncheckedExpr (i : ExprInfo) (id : nat).

Module ExprKind.
Inductive t : Type :=
| IntegerLiteral | FloatLiteral | Load
| Call | Unary | Binary | ConstructorCall | DotSyntaxCall
| Tuple | TupleElement | TupleShuffle | LookThroughOneof | DeclRef
| Func | Closure | AnonClosureArg
| Unchecked (id : nat).

Definition ofApply (k : Apply.t) : t :=
  match k with
  | Apply.Call => Call
  | Apply.Unary => Unary
  | Apply.Binary => Binary
  | Apply.ConstructorCall => ConstructorCall
  | Apply.DotSyntaxCall => DotSyntaxCall
  end.
End ExprKind.

Definition info (E : Expr) : ExprInfo :=
  match E with
  | IntegerLiteralExpr i _ | FloatLiteralExpr i _ | LoadExpr i _
  | ApplyExpr _ i _ _ | TupleExpr i _ _ | TupleElementExpr i _ _
  | TupleShuffleExpr i _ _ | LookThroughOneofExpr i _ | DeclRefExpr i _
  | FuncExpr i _ | ClosureExpr i _ | AnonClosureArgExpr i _
  | UncheckedExpr i _ => i
  end.

Definition getType (E : Expr) : SemType := infoType (info E).
Definition getValueKind (E : Expr) : ValueKind := infoValueKind (info E).
Definition getLoc (E : Expr) : SourceLoc := infoLoc (info E).

Definition getExprKind (E : Expr) : ExprKind.t :=
  match E with
  | IntegerLiteralExpr _ _ => ExprKind.IntegerLiteral
  | FloatLiteralExpr _ _ => ExprKind.FloatLiteral
  | LoadExpr _ _ => ExprKind.Load
  | ApplyExpr k _ _ _ => ExprKind.ofApply k
  | TupleExpr _ _ _ => ExprKind.Tuple
  | TupleElementExpr _ _ _ => ExprKind.TupleElement
  | TupleShuffleExpr _ _ _ => ExprKind.TupleShuffle
  | LookThroughOneofExpr _ _ => ExprKind.LookThroughOneof
  | DeclRefExpr _ _ => ExprKind.DeclRef
  | FuncExpr _ _ => ExprKind.Func
  | ClosureExpr _ _ => ExprKind.Closure
  | AnonClosureArgExpr _ _ => ExprKind.AnonClosureArg
  | UncheckedExpr _ id => ExprKind.Unchecked id
  end.

(** ** Types as IRGen sees them, and the rest of IRGen *)

Section Lowering.

(** [RValue::MaxScalars], a constant of [RValue.h]. *)
Context {MaxScalars : nat}.

(** Modelled from the spec: [RValue::forScalars] on a sequence stores it
    verbatim and bound-checks its count; [RValue::forAggregate] wraps one
    address.  The one- and two-scalar overloads take their scalars as
    separate arguments and have nothing to check. *)
Definition forScalars (vs : list Value) : IRGen RValue :=
  assert (List.length vs <=? MaxScalars)%nat "Scalars.size() <= MaxScalars" ;;
  ret (Scalars vs).

Definition forScalars1 (v : Value) : RValue := Scalars [v].
Definition forScalars2 (v1 v2 : Value) : RValue := Scalars [v1; v2].
Definition forAggregate (addr : Value) : RValue := Aggregate addr.

(** Modelled from the spec: an r-value has the shape of its type's
    schema and holds at most [MaxScalars] scalars, so a scalar schema has
    at most that many slots. *)
Definition fitsRValue (schema : RValueSchema) : bool :=
  match schema with
  | ScalarSchema tys => (List.length tys <=? MaxScalars)%nat
  | AggregateSchema _ => true
  end.

(** [TypeInfo] ([GenType.h]): layout, schemas and the virtual operations
    this file calls.  [getExplosionSchema] answers with the elements it
    adds to an empty schema of the given kind; [explodeAggregate] is what
    [explode] does with an r-value held in memory; [schemaFits] is the
    invariant above. *)
Record TypeInfo : Type := mkTypeInfo {
  getStorageType : LLVMType;
  StorageSize : Z;
  StorageAlignment : Z;
  getSchema : RValueSchema;
  getExplosionSchema : ExplosionKind -> list SchemaElement;
  store : RValue -> Address -> IRGen unit;
  explodeAggregate : Value -> Explosion -> IRGen Explosion;
  schemaFits : fitsRValue getSchema = true
}.

(** Modelled from the spec: [TypeInfo::explode], the flattening of an
    r-value into an explosion: a scalar sequence contributes its scalars
    in order; how an aggregate decomposes is the type's business and
    depends on the explosion's kind. *)
Definition explode (type : TypeInfo) (rv : RValue) (explosion : Explosion)
  : IRGen Explosion :=
  match rv with
  | Scalars vs => ret (addAll explosion vs)
  | Aggregate addr => explodeAggregate type addr explosion
  end.

(** Members of [IRGenFunction] and [IRGenModule] defined in other files.
    Each one sees the whole context and may insert instructions, report
    diagnostics or abort. *)
Class Externals : Type := {
  getFragileTypeInfo : SemType -> TypeInfo;
  getLocal : ValueDecl -> IRGen Address;
  getGlobal : ValueDecl -> TypeInfo -> IRGen LValue;
  emitLoad : LValue -> TypeInfo -> IRGen RValue;
  emitRValueForFunction : ValueDecl -> IRGen RValue;
  getAddrOfInjectionFunction : ValueDecl -> IRState -> Value * IRState;
  emitApplyExpr : Expr -> TypeInfo -> IRGen RValue;
  emitTupleLiteral : Expr -> TypeInfo -> IRGen RValue;
  emitTupleElementRValue : Expr -> TypeInfo -> IRGen RValue;
  emitTupleShuffleExpr : Expr -> TypeInfo -> IRGen RValue;
  emitLookThroughOneofRValue : Expr -> IRGen RValue;
  emitExplodedApplyExpr : Expr -> Explosion -> IRGen Explosion;
  emitExplodedTupleLiteral : Expr -> Explosion -> IRGen Explosion;
  emitExplodedTupleShuffle : Expr -> Explosion -> IRGen Explosion;
  emitExplodedTupleElement : Expr -> Explosion -> IRGen Explosion;
  emitTupleElementLValue : Expr -> TypeInfo -> IRGen LValue;
  emitLookThroughOneofLValue : Expr -> IRGen LValue
}.

Context {X : Externals}.

Definition lift {A} (f : IRState -> A * IRState) : IRGen A :=
  fun s => let (a, s') := f s in Ok a s'.

(** ** Error recovery *)

(** Emit a fake l-value which obeys the given specification. *)
Definition emitFakeLValue (type : TypeInfo) : LValue :=
  let fakeAddr := UndefValue (PointerTo (getStorageType type)) in
  emitAddressLValue (mkAddress fakeAddr (StorageAlignment type)).

(** Emit a fake r-value which obeys the given specification. *)
Definition emitFakeRValue (TInfo : TypeInfo) : IRGen RValue :=
  match getSchema TInfo with
  | ScalarSchema tys => forScalars (map UndefValue tys)
  | AggregateSchema aggTy => ret (forAggregate (UndefValue (PointerTo aggTy)))
  end.

Definition fakeElement (element : SchemaElement) : Value :=
  match element with
  | AggregateElement aggTy => UndefValue (PointerTo aggTy)
  | ScalarElement ty => UndefValue ty
  end.

Definition emitFakeExplosion (type : TypeInfo) (explosion : Explosion)
  : Explosion :=
  fold_left (fun ex element => add ex (fakeElement element))
            (getExplosionSchema type (getKind explosion)) explosion.

(** ** Literals and declaration references *)

Definition emitIntegerLiteralExpr (i : ExprInfo) (v : APInt) : IRGen Value :=
  assert (isBuiltinIntegerType (infoType i))
         "E->getType()->is<BuiltinIntegerType>()" ;;
  ret (ConstantInt v).

Definition emitFloatLiteralExpr (i : ExprInfo) (v : APFloat) : IRGen Value :=
  assert (isBuiltinFloatType (infoType i))
         "E->getType()->is<BuiltinFloatType>()" ;;
  ret (ConstantFP v).

Definition emitDeclRefLValue (i : ExprInfo) (D : ValueDecl) (TInfo : TypeInfo)
  : IRGen LValue :=
  match declKind D with
  | DeclKind.Extension | DeclKind.Import | DeclKind.TypeAlias =>
      llvm_unreachable "decl is not a value decl"
  | DeclKind.Func =>
      llvm_unreachable "decl cannot be emitted as an l-value"
  | DeclKind.Var =>
      if isLocalContext D
      then addr <- getLocal D ;; ret (emitAddressLValue addr)
      else getGlobal D TInfo
  | DeclKind.Arg =>
      addr <- getLocal D ;; ret (emitAddressLValue addr)
  | DeclKind.ElementRef | DeclKind.OneOfElement =>
      unimplemented (infoLoc i) "emitting this decl as an l-value" ;;
      ret (emitFakeLValue TInfo)
  end.

(** Emit a declaration reference as an r-value. *)
Definition emitDeclRefRValue (i : ExprInfo) (D : ValueDecl) (TInfo : TypeInfo)
  : IRGen RValue :=
  match declKind D with
  | DeclKind.Extension | DeclKind.Import | DeclKind.TypeAlias =>
      llvm_unreachable "decl is not a value decl"
  | DeclKind.Arg | DeclKind.Var =>
      lv <- emitDeclRefLValue i D TInfo ;; emitLoad lv TInfo
  | DeclKind.Func =>
      emitRValueForFunction D
  | DeclKind.OneOfElement =>
      fn <- lift (getAddrOfInjectionFunction D) ;;
      let data := UndefValue Int8PtrTy in
      ret (forScalars2 fn data)
  | DeclKind.ElementRef =>
      unimplemented (infoLoc i) "emitting this decl as an r-value" ;;
      emitFakeRValue TInfo
  end.

(** Emit a declaration reference as an exploded r-value. *)
Definition emitExplodedDeclRef (i : ExprInfo) (D : ValueDecl)
    (explosion : Explosion) : IRGen Explosion :=
  let type := getFragileTypeInfo (infoType i) in
  rv <- emitDeclRefRValue i D type ;;
  explode type rv explosion.

(** ** The expression dispatchers *)

Definition notSurviving {A} : IRGen A :=
  llvm_unreachable "these expression kinds should not survive to IR-gen".

(** [TupleExpr::getElement(0)] on a tuple without elements. *)
Definition noElement {A} : IRGen A :=
  fun _ => Fatal (AssertionFailed "i < getNumElements()").

(** Modelled from the spec: [emitTupleExpr] ([GenTuple.cpp]): grouping
    parentheses recurse into their sole element, a true tuple goes to the
    tuple-construction collaborator.  [self] is [emitRValue]. *)
Definition emitTupleExpr (self : Expr -> TypeInfo -> IRGen RValue)
    (E : Expr) (grouping : bool) (elements : list Expr) (TInfo : TypeInfo)
  : IRGen RValue :=
  if grouping then
    match elements with
    | e0 :: _ => self e0 TInfo
    | [] => noElement
    end
  else emitTupleLiteral E TInfo.

(** Emit the given expression as an r-value.  The expression need not
    actually have r-value kind. *)
Fixpoint emitRValue (E : Expr) (TInfo : TypeInfo) {struct E} : IRGen RValue :=
  match E with
  | UncheckedExpr _ _ => notSurviving
  | LoadExpr _ sub => emitRValue sub TInfo
  | ApplyExpr _ _ _ _ => emitApplyExpr E TInfo
  | IntegerLiteralExpr i v =>
      c <- emitIntegerLiteralExpr i v ;; ret (forScalars1 c)
  | FloatLiteralExpr i v =>
      c <- emitFloatLiteralExpr i v ;; ret (forScalars1 c)
  | TupleExpr _ grouping elements =>
      emitTupleExpr emitRValue E grouping elements TInfo
  | TupleElementExpr _ _ _ => emitTupleElementRValue E TInfo
  | TupleShuffleExpr _ _ _ => emitTupleShuffleExpr E TInfo
  | LookThroughOneofExpr _ _ => emitLookThroughOneofRValue E
  | DeclRefExpr i D => emitDeclRefRValue i D TInfo
  | FuncExpr i _ | ClosureExpr i _ | AnonClosureArgExpr i _ =>
      unimplemented (infoLoc i)
                    "cannot generate r-values for this expression yet" ;;
      emitFakeRValue TInfo
  end.

(** The overload [emitRValue(Expr *E)]. *)
Definition emitRValue1 (E : Expr) : IRGen RValue :=
  let type := getFragileTypeInfo (getType E) in
  emitRValue E type.

Fixpoint emitExplodedRValue (E : Expr) (explosion : Explosion) {struct E}
  : IRGen Explosion :=
  match E with
  | UncheckedExpr _ _ => notSurviving
  | LoadExpr _ sub => emitExplodedRValue sub explosion
  | TupleExpr _ grouping elements =>
      if grouping then
        match elements with
        | e0 :: _ => emitExplodedRValue e0 explosion
        | [] => noElement
        end
      else emitExplodedTupleLiteral E explosion
  | TupleShuffleExpr _ _ _ => emitExplodedTupleShuffle E explosion
  | TupleElementExpr _ _ _ => emitExplodedTupleElement E explosion
  | ApplyExpr _ _ _ _ => emitExplodedApplyExpr E explosion
  | IntegerLiteralExpr i v =>
      c <- emitIntegerLiteralExpr i v ;; ret (add explosion c)
  | FloatLiteralExpr i v =>
      c <- emitFloatLiteralExpr i v ;; ret (add explosion c)
  | LookThroughOneofExpr _ sub => emitExplodedRValue sub explosion
  | DeclRefExpr i D => emitExplodedDeclRef i D explosion
  | FuncExpr i _ | ClosureExpr i _ | AnonClosureArgExpr i _ =>
      unimplemented (infoLoc i)
                    "cannot explode r-values for this expression yet" ;;
      ret (emitFakeExplosion (getFragileTypeInfo (infoType i)) explosion)
  end.

(** Emit the given expression, which must have primitive scalar type,
    as that primitive scalar value. *)
Definition emitAsPrimitiveScalar (E : Expr) : IRGen Value :=
  explosion <- emitExplodedRValue E (newExplosion Minimal) ;;
  claimed <- claimNext explosion ;;
  let (result, explosion') := claimed : Value * Explosion in
  assert (empty explosion') "explosion.empty()" ;;
  ret result.

Definition neverLValue {A} : IRGen A :=
  llvm_unreachable "these expression kinds should never be l-values".

(** Emit the given expression as an l-value.  The expression must
    actually have l-value kind. *)
Fixpoint emitLValue (E : Expr) (TInfo : TypeInfo) {struct E} : IRGen LValue :=
  assert (isLValueKind (getValueKind E))
         "E->getValueKind() == ValueKind::LValue" ;;
  match E with
  | UncheckedExpr _ _ => notSurviving
  | ApplyExpr Apply.Call _ _ _
  | ApplyExpr Apply.Unary _ _ _
  | ApplyExpr Apply.Binary _ _ _
  | IntegerLiteralExpr _ _
  | FloatLiteralExpr _ _
  | TupleShuffleExpr _ _ _
  | FuncExpr _ _
  | ClosureExpr _ _
  | AnonClosureArgExpr _ _
  | LoadExpr _ _ => neverLValue
  | ApplyExpr Apply.ConstructorCall i _ _
  | ApplyExpr Apply.DotSyntaxCall i _ _ =>
      unimplemented (infoLoc i)
                    "cannot generate l-values for this expression yet" ;;
      ret (emitFakeLValue TInfo)
  | TupleExpr _ grouping elements =>
      assert grouping
             "TE->isGroupingParen() && emitting non-grouping tuple as l-value" ;;
      match elements with
      | e0 :: _ => emitLValue e0 TInfo
      | [] => noElement
      end
  | TupleElementExpr _ _ _ => emitTupleElementLValue E TInfo
  | LookThroughOneofExpr _ _ => emitLookThroughOneofLValue E
  | DeclRefExpr i D => emitDeclRefLValue i D TInfo
  end.

(** The overload [emitLValue(Expr *E)]. *)
Definition emitLValue1 (E : Expr) : IRGen LValue :=
  let TInfo := getFragileTypeInfo (getType E) in
  emitLValue E TInfo.

(** Try to emit the given expression as an underlying l-value. *)
Fixpoint tryEmitAsLValue (E : Expr) (type : TypeInfo) {struct E}
  : IRGen (option LValue) :=
  (* If it *is* an l-value, then go ahead. *)
  if isLValueKind (getValueKind E) then
    lv <- emitLValue E type ;; ret (Some lv)
  else
    match E with
    | UncheckedExpr _ _ => notSurviving
    | LoadExpr _ sub => lv <- emitLValue sub type ;; ret (Some lv)
    | ApplyExpr _ _ _ _
    | IntegerLiteralExpr _ _
    | FloatLiteralExpr _ _
    | DeclRefExpr _ _
    | FuncExpr _ _
    | ClosureExpr _ _
    | AnonClosureArgExpr _ _ => ret None
    | TupleExpr _ grouping elements =>
        if grouping then
          match elements with
          | e0 :: _ => tryEmitAsLValue e0 type
          | [] => noElement
          end
        else ret None
    | TupleElementExpr _ _ _
    | TupleShuffleExpr _ _ _
    | LookThroughOneofExpr _ _ => ret None
    end.

(** ** Memory helpers *)

(** Emit an r-value directly into memory. *)
Definition emitRValueToMemory (E : Expr) (addr : Address) (type : TypeInfo)
  : IRGen unit :=
  RV <- emitRValue E type ;;
  store type RV addr.

(** Emit an expression as an initializer for the given l-value. *)
Definition emitInit (addr : Address) (E : Expr) (type : TypeInfo) : IRGen unit :=
  emitRValueToMemory E addr type.

(** Zero-initialize the given l-value. *)
Definition emitZeroInit (addr : Address) (type : TypeInfo) : IRGen unit :=
  match getSchema type with
  | ScalarSchema tys =>
      (* If the schema is scalar, just store a bunch of values into it. *)
      RV <- forScalars (map NullValue tys) ;;
      store type RV addr
  | AggregateSchema _ =>
      (* Otherwise, since the schema is aggregate, do a memset. *)
      ptr <- CreateBitCast (getAddress addr) Int8PtrTy ;;
      CreateMemSet ptr (getInt8 0) (getInt64 (StorageSize type))
                   (getAlignment addr) false
  end.

(** Emit an expression whose value is being ignored. *)
Definition emitIgnored (E : Expr) : IRGen unit :=
  emitRValue1 E ;; ret tt.

End Lowering.

(** ** A small instance of the rest of IRGen

    Enough of a type oracle and of the other lowering files to run the
    dispatchers on concrete expressions: integers and floats are one
    scalar, [OtherType 0] is the empty tuple, [OtherType 1] a function
    (two scalars), every other type lives in memory. *)
Module Sample.

Definition MaxScalars : nat := 3.

Definition storeInst (addr : Address) (v : Value) : Instr :=
  OtherInst 1 [v; getAddress addr].

Definition storeTo (rv : RValue) (addr : Address) : IRGen unit :=
  fun s =>
    match rv with
    | Scalars vs =>
        Ok tt (mkState (insts s ++ map (storeInst addr) vs) (diags s) (globals s))
    | Aggregate src =>
        Ok tt (insert (OtherInst 2 [src; getAddress addr]) s)
    end.

Definition passAddress (addr : Value) (ex : Explosion) : IRGen Explosion :=
  ret (add ex addr).

Definition scalarInfo (tys : list LLVMType) (size : Z)
    (fits : (List.length tys <=? MaxScalars)%nat = true)
  : @TypeInfo MaxScalars :=
  @mkTypeInfo MaxScalars (NamedTy 0) size 8 (ScalarSchema tys)
              (fun _ => map ScalarElement tys) storeTo passAddress fits.

Definition memoryInfo (id : nat) (size : Z) : @TypeInfo MaxScalars :=
  @mkTypeInfo MaxScalars (NamedTy id) size 16 (AggregateSchema (NamedTy id))
              (fun k => match k with
                        | Minimal => [AggregateElement (NamedTy id)]
                        | Maximal => [ScalarElement Int64Ty; ScalarElement Int64Ty]
                        end)
              storeTo passAddress eq_refl.

Definition typeInfoOf (t : SemType) : @TypeInfo MaxScalars :=
  match t with
  | BuiltinIntegerType bits => scalarInfo [IntegerTy bits] 8 eq_refl
  | BuiltinFloatType bits => scalarInfo [FloatingTy bits] 8 eq_refl
  | OtherType 0 => scalarInfo [] 0 eq_refl
  | OtherType 1 => scalarInfo [Int8PtrTy; Int8PtrTy] 16 eq_refl
  | OtherType id => memoryInfo id 24
  end.

Definition stackSlot (D : ValueDecl) : Address :=
  mkAddress (NamedValue (declId D)) 8.

Definition globalSlot (D : ValueDecl) (type : @TypeInfo MaxScalars)
  : IRGen LValue :=
  fun s =>
    Ok (AddressLValue (mkAddress (NamedValue (declId D)) (StorageAlignment type)))
       (mkState (insts s) (diags s) (declId D :: globals s)).

Definition loadFrom (lv : LValue) (type : @TypeInfo MaxScalars)
  : IRGen RValue :=
  fun s =>
    match lv, getSchema type with
    | AddressLValue addr, ScalarSchema tys =>
        Ok (Scalars (map (CastValue (getAddress addr)) tys))
           (insert (OtherInst 3 [getAddress addr]) s)
    | AddressLValue addr, AggregateSchema _ => Ok (Aggregate (getAddress addr)) s
    end.

Definition opaqueRValue (opcode : nat) : IRGen RValue :=
  fun s => Ok (Scalars [NamedValue opcode]) (insert (OtherInst opcode []) s).

Definition opaqueExplosion (opcode : nat) (ex : Explosion) : IRGen Explosion :=
  fun s => Ok (add ex (NamedValue opcode)) (insert (OtherInst opcode []) s).

#[export] Instance externals : @Externals MaxScalars := {|
  getFragileTypeInfo := typeInfoOf;
  getLocal := fun D => ret (stackSlot D);
  getGlobal := globalSlot;
  emitLoad := loadFrom;
  emitRValueForFunction := fun D =>
    ret (Scalars [NamedValue (declId D); UndefValue Int8PtrTy]);
  getAddrOfInjectionFunction := fun D s =>
    (NamedValue (declId D), mkState (insts s) (diags s) (declId D :: globals s));
  emitApplyExpr := fun _ _ => opaqueRValue 10;
  emitTupleLiteral := fun _ _ => opaqueRValue 11;
  emitTupleElementRValue := fun _ _ => opaqueRValue 12;
  emitTupleShuffleExpr := fun _ _ => opaqueRValue 13;
  emitLookThroughOneofRValue := fun _ => opaqueRValue 14;
  emitExplodedApplyExpr := fun _ => opaqueExplosion 10;
  emitExplodedTupleLiteral := fun _ => opaqueExplosion 11;
  emitExplodedTupleShuffle := fun _ => opaqueExplosion 13;
  emitExplodedTupleElement := fun _ => opaqueExplosion 12;
  emitTupleElementLValue := fun _ _ =>
    ret (AddressLValue (mkAddress (NamedValue 15) 8));
  emitLookThroughOneofLValue := fun _ =>
    ret (AddressLValue (mkAddress (NamedValue 16) 8))
|}.

Definition start : IRState := mkState [] [] [].

Definition rvalue (t : SemType) (loc : SourceLoc) : ExprInfo :=
  mkInfo t RValueKind loc.
Definition lvalue (t : SemType) (loc : SourceLoc) : ExprInfo :=
  mkInfo t LValueKind loc.

Definition Int32 : SemType := BuiltinIntegerType 32.
Definition Float64 : SemType := BuiltinFloatType 64.

(** The literal [42], the literal [3.14] (its IEEE double bits), a
    local variable [x], and a few expressions around them. *)
Definition lit42 : Expr := IntegerLiteralExpr (rvalue Int32 1) (mkAPInt 32 42).
Definition lit314 : Expr :=
  FloatLiteralExpr (rvalue Float64 2) (mkAPFloat 64 4614253070214989087).
Definition x : ValueDecl := mkDecl DeclKind.Var 7 true.
Definition refX : Expr := DeclRefExpr (lvalue Int32 3) x.
Definition loadX : Expr := LoadExpr (rvalue Int32 4) refX.
Definition parenX : Expr := TupleExpr (lvalue Int32 5) true [refX].
Definition closure (t : SemType) : Expr := ClosureExpr (rvalue t 6) lit42.
Definition callF (vk : ValueKind) : Expr :=
  ApplyExpr Apply.Call (mkInfo Int32 vk 8) refX lit42.
Definition ctorCall : Expr :=
  ApplyExpr Apply.ConstructorCall (lvalue (OtherType 5) 9) refX lit42.
Definition element : ValueDecl := mkDecl DeclKind.ElementRef 10 true.
Definition refElement : Expr := DeclRefExpr (lvalue (OtherType 5) 11) element.
Definition caseA : ValueDecl := mkDecl DeclKind.OneOfElement 12 false.

(** A literal under a load, a grouping parenthesis and a look-through;
    references to a type alias and to a function; an unchecked node; a
    true tuple. *)
Definition wrapped42 : Expr :=
  LoadExpr (rvalue Int32 20)
    (TupleExpr (rvalue Int32 21) true
       [LookThroughOneofExpr (rvalue Int32 22) lit42]).
Definition alias : ValueDecl := mkDecl DeclKind.TypeAlias 23 false.
Definition refAlias (vk : ValueKind) : Expr :=
  DeclRefExpr (mkInfo (OtherType 5) vk 24) alias.
Definition fdecl : ValueDecl := mkDecl DeclKind.Func 25 false.
Definition refF : Expr := DeclRefExpr (lvalue (OtherType 1) 26) fdecl.
Definition unchecked (vk : ValueKind) : Expr :=
  UncheckedExpr (mkInfo Int32 vk 27) 0.
Definition pair (vk : ValueKind) : Expr :=
  TupleExpr (mkInfo (OtherType 5) vk 28) false [lit42; lit42].
Definition loadLoadX : Expr := LoadExpr (rvalue Int32 29) loadX.

End Sample.

(** ** Vocabulary of the properties *)

(** An induction principle that reaches the elements of a tuple. *)
Section ExprInduction.
Variable P : Expr -> Prop.
Hypothesis HInt : forall i v, P (IntegerLiteralExpr i v).
Hypothesis HFloat : forall i v, P (FloatLiteralExpr i v).
Hypothesis HLoad : forall i sub, P sub -> P (LoadExpr i sub).
Hypothesis HApply : forall k i fn arg, P fn -> P arg -> P (ApplyExpr k i fn arg).
Hypothesis HTuple : forall i grouping elements,
    Forall P elements -> P (TupleExpr i grouping elements).
Hypothesis HElement : forall i base n, P base -> P (TupleElementExpr i base n).
Hypothesis HShuffle : forall i sub m, P sub -> P (TupleShuffleExpr i sub m).
Hypothesis HLook : forall i sub, P sub -> P (LookThroughOneofExpr i sub).
Hypothesis HDeclRef : forall i D, P (DeclRefExpr i D).
Hypothesis HFunc : forall i body, P (FuncExpr i body).
Hypothesis HClosure : forall i input, P input -> P (ClosureExpr i input).
Hypothesis HAnon : forall i n, P (AnonClosureArgExpr i n).
Hypothesis HUnchecked : forall i id, P (UncheckedExpr i id).

Fixpoint Expr_tuple_ind (E : Expr) : P E :=
  match E with
  | IntegerLiteralExpr i v => HInt i v
  | FloatLiteralExpr i v => HFloat i v
  | LoadExpr i sub => HLoad i sub (Expr_tuple_ind sub)
  | ApplyExpr k i fn arg =>
      HApply k i fn arg (Expr_tuple_ind fn) (Expr_tuple_ind arg)
  | TupleExpr i grouping elements =>
      HTuple i grouping elements
        ((fix all (l : list Expr) : Forall P l :=
            match l with
            | [] => Forall_nil P
            | e :: l' => Forall_cons e (Expr_tuple_ind e) (all l')
            end) elements)
  | TupleElementExpr i base n => HElement i base n (Expr_tuple_ind base)
  | TupleShuffleExpr i sub m => HShuffle i sub m (Expr_tuple_ind sub)
  | LookThroughOneofExpr i sub => HLook i sub (Expr_tuple_ind sub)
  | DeclRefExpr i D => HDeclRef i D
  | FuncExpr i body => HFunc i body
  | ClosureExpr i input => HClosure i input (Expr_tuple_ind input)
  | AnonClosureArgExpr i n => HAnon i n
  | UncheckedExpr i id => HUnchecked i id
  end.
End ExprInduction.

(** The expression classes the properties speak about. *)
Definition isLiteral (E : Expr) : bool :=
  match E with
  | IntegerLiteralExpr _ _ | FloatLiteralExpr _ _ => true
  | _ => false
  end.

Definition isDeclRef (E : Expr) : bool :=
  match E with DeclRefExpr _ _ => true | _ => false end.

(** Call, operator (unary, binary) and literal expressions. *)
Definition isCallOperatorOrLiteral (E : Expr) : bool :=
  match getExprKind E with
  | ExprKind.Call | ExprKind.Unary | ExprKind.Binary
  | ExprKind.IntegerLiteral | ExprKind.FloatLiteral => true
  | _ => false
  end.

(** Kinds that [emitLValue] rules out as never addressable. *)
Definition neverAddressable (k : ExprKind.t) : bool :=
  match k with
  | ExprKind.IntegerLiteral | ExprKind.FloatLiteral | ExprKind.Load
  | ExprKind.TupleShuffle | ExprKind.Func | ExprKind.Closure
  | ExprKind.AnonClosureArg
  | ExprKind.Call | ExprKind.Unary | ExprKind.Binary => true
  | _ => false
  end.

(** Function, closure and anonymous-closure-argument literals. *)
Definition isClosureLike (E : Expr) : bool :=
  match E with
  | FuncExpr _ _ | ClosureExpr _ _ | AnonClosureArgExpr _ _ => true
  | _ => false
  end.

(** The placeholder the spec asks for: undefined scalars for each slot
    of a scalar schema, or an undefined address of the aggregate's
    pointer type. *)
Definition placeholder (schema : RValueSchema) : RValue :=
  match schema with
  | ScalarSchema tys => Scalars (map UndefValue tys)
  | AggregateSchema aggTy => Aggregate (UndefValue (PointerTo aggTy))
  end.


(** The outcome of an error-recovery path: not aborted, the placeholder
    [a] returned, exactly one diagnostic appended at [loc], and nothing
    else touched. *)
Definition recovered {A} (r : Result A) (s : IRState) (loc : SourceLoc) (a : A)
  : Prop :=
  exists s' msg,
    r = Ok a s' /\
    diags s' = diags s ++ [mkDiag loc msg] /\
    List.length (diags s') = S (List.length (diags s)) /\
    insts s' = insts s /\ globals s' = globals s.

(** What [emitFakeLValue] builds: an undefined pointer to the storage
    type, at the storage alignment. *)
Definition fakeAddress {MaxScalars : nat} (TInfo : @TypeInfo MaxScalars)
  : Address :=
  mkAddress (UndefValue (PointerTo (getStorageType TInfo))) (StorageAlignment TInfo).



Definition countMemSets (s : IRState) : nat :=
  List.length (filter isMemSet (insts s)).

(** The invariant of checked trees that [emitLValue] spells out for the
    kinds that "should never be l-values": a node of such a kind is not
    classified as an l-value. *)
Definition kindsConsistent (E : Expr) : bool :=
  negb (neverAddressable (getExprKind E) && isLValueKind (getValueKind E)).




(** What the exploded lowering looks through before it does anything:
    loads, sum-type look-throughs and grouping parentheses. *)
Fixpoint peel (E : Expr) : Expr :=
  match E with
  | LoadExpr _ sub => peel sub
  | LookThroughOneofExpr _ sub => peel sub
  | TupleExpr _ true (e0 :: _) => peel e0
  | _ => E
  end.

Definition isPeeled (E : Expr) : bool :=
  match E with
  | LoadExpr _ _ | LookThroughOneofExpr _ _ | TupleExpr _ true (_ :: _) => false
  | _ => true
  end.

(** The expressions on which the l-value probe gives up: not classified
    as an l-value, neither a load nor an unchecked kind, and, under
    grouping parentheses, an element of the same sort. *)
Fixpoint probesAbsent (E : Expr) : bool :=
  negb (isLValueKind (getValueKind E)) &&
  match E with
  | LoadExpr _ _ | UncheckedExpr _ _ => false
  | TupleExpr _ true (e0 :: _) => probesAbsent e0
  | TupleExpr _ true [] => false
  | _ => true
  end.

(** The expression under any number of loads. *)
Fixpoint underLoads (E : Expr) : Expr :=
  match E with
  | LoadExpr _ sub => underLoads sub
  | _ => E
  end.

(** Declarations that are not values. *)
Definition isNotValueDecl (D : ValueDecl) : bool :=
  match declKind D with
  | DeclKind.Extension | DeclKind.Import | DeclKind.TypeAlias => true
  | _ => false
  end.

(** Variables and arguments. *)
Definition isVariable (D : ValueDecl) : bool :=
  match declKind D with
  | DeclKind.Var | DeclKind.Arg => true
  | _ => false
  end.

(** A step of lowering that only appends to the explosion it is given. *)
Definition AppendsOnly (m : Explosion -> IRGen Explosion) : Prop :=
  forall ex s ex' s',
    m ex s = Ok ex' s' ->
    getKind ex' = getKind ex /\ exists vs, pending ex' = pending ex ++ vs.

(** A step of lowering whose effect on the context stays within [R]. *)
Definition Respects {A} (R : IRState -> IRState -> Prop) (m : IRGen A) : Prop :=
  forall s a s', m s = Ok a s' -> R s s'.

(** Every member of the rest of IRGen stays within [R]. *)
Record Framed {MaxScalars : nat} (X : @Externals MaxScalars)
    (R : IRState -> IRState -> Prop) : Prop := mkFramed {
  framed_getLocal : forall D, Respects R (getLocal D);
  framed_getGlobal : forall D T, Respects R (getGlobal D T);
  framed_emitLoad : forall lv T, Respects R (emitLoad lv T);
  framed_emitRValueForFunction : forall D, Respects R (emitRValueForFunction D);
  framed_getAddrOfInjectionFunction :
    forall D s, R s (snd (getAddrOfInjectionFunction D s));
  framed_emitApplyExpr : forall E T, Respects R (emitApplyExpr E T);
  framed_emitTupleLiteral : forall E T, Respects R (emitTupleLiteral E T);
  framed_emitTupleElementRValue :
    forall E T, Respects R (emitTupleElementRValue E T);
  framed_emitTupleShuffleExpr : forall E T, Respects R (emitTupleShuffleExpr E T);
  framed_emitLookThroughOneofRValue :
    forall E, Respects R (emitLookThroughOneofRValue E);
  framed_emitExplodedApplyExpr :
    forall E ex, Respects R (emitExplodedApplyExpr E ex);
  framed_emitExplodedTupleLiteral :
    forall E ex, Respects R (emitExplodedTupleLiteral E ex);
  framed_emitExplodedTupleShuffle :
    forall E ex, Respects R (emitExplodedTupleShuffle E ex);
  framed_emitExplodedTupleElement :
    forall E ex, Respects R (emitExplodedTupleElement E ex);
  framed_emitTupleElementLValue :
    forall E T, Respects R (emitTupleElementLValue E T);
  framed_emitLookThroughOneofLValue :
    forall E, Respects R (emitLookThroughOneofLValue E);
  framed_explodeAggregate :
    forall ty addr ex,
      Respects R (explodeAggregate (getFragileTypeInfo ty) addr ex)
}.

(** The context only grows: instructions and diagnostics are appended,
    never removed or reordered. *)
Definition grows (s s' : IRState) : Prop :=
  (exists more, insts s' = insts s ++ more)
  /\ (exists more, diags s' = diags s ++ more).

(** ** Properties of the lowering *)

Section Properties.

Context {MaxScalars : nat} {X : @Externals MaxScalars}.

Local Abbreviation TypeInfo := (@TypeInfo MaxScalars).

(** How an expression can stand for an l-value in [tryEmitAsLValue]: it
    is classified as an l-value and emitted as one, or it is a load whose
    sub-expression is emitted as an l-value, or it is a grouping
    parenthesis around such a form.  [lv] and [s'] are the l-value and
    the context that come out of context [s]. *)
Inductive UnwrapsToLValue (type : TypeInfo) (s : IRState) (lv : LValue)
    (s' : IRState) : Expr -> Prop :=
| unwraps_lvalue_kind (E : Expr) :
    getValueKind E = LValueKind ->
    emitLValue E type s = Ok lv s' ->
    UnwrapsToLValue type s lv s' E
| unwraps_load (i : ExprInfo) (sub : Expr) :
    emitLValue sub type s = Ok lv s' ->
    UnwrapsToLValue type s lv s' (LoadExpr i sub)
| unwraps_grouping (i : ExprInfo) (e : Expr) (rest : list Expr) :
    UnwrapsToLValue type s lv s' e ->
    UnwrapsToLValue type s lv s' (TupleExpr i true (e :: rest)).

(** *** Shared facts *)

(** Runs a dispatcher on a node whose value kind is known from [H]. *)
Ltac with_kind H :=
  unfold getValueKind in H; simpl in H;
  simpl; unfold bind, assert, getValueKind; simpl;
  rewrite H; simpl.

Lemma forScalars_fits (vs : list Value) (s : IRState) :
  (List.length vs <= MaxScalars)%nat ->
  forScalars (MaxScalars := MaxScalars) vs s = Ok (Scalars vs) s.
Proof.
  intros Hlen. unfold forScalars, bind, assert, ret.
  apply Nat.leb_le in Hlen. now rewrite Hlen.
Qed.

Lemma schema_slots_fit (type : TypeInfo) (tys : list LLVMType) :
  getSchema type = ScalarSchema tys -> (List.length tys <= MaxScalars)%nat.
Proof.
  intros Hschema. pose proof (schemaFits type) as Hfits.
  rewrite Hschema in Hfits. now apply Nat.leb_le.
Qed.

Lemma emitFakeRValue_placeholder (TInfo : TypeInfo) (s : IRState) :
  emitFakeRValue TInfo s = Ok (placeholder (getSchema TInfo)) s.
Proof.
  unfold emitFakeRValue.
  destruct (getSchema TInfo) as [tys | aggTy] eqn:Hschema; [ | reflexivity ].
  apply forScalars_fits. rewrite length_map. now apply schema_slots_fit with TInfo.
Qed.


Lemma fold_add_addAll (f : SchemaElement -> Value) (elements : list SchemaElement) :
  forall explosion,
    fold_left (fun ex element => add ex (f element)) elements explosion
    = addAll explosion (map f elements).
Proof.
  induction elements as [ | el rest IH]; intros explosion; simpl.
  - unfold addAll. rewrite app_nil_r. now destruct explosion.
  - rewrite IH. unfold addAll, add. simpl. now rewrite <- app_assoc.
Qed.

Lemma emitFakeExplosion_addAll (type : TypeInfo) (explosion : Explosion) :
  emitFakeExplosion type explosion
  = addAll explosion
           (map fakeElement (getExplosionSchema type (getKind explosion))).
Proof. unfold emitFakeExplosion. apply fold_add_addAll. Qed.

Lemma unimplemented_recovered {A} (loc : SourceLoc) (msg : string) (a : A)
    (s : IRState) :
  recovered (Ok a (recordDiag loc msg s)) s loc a.
Proof.
  exists (recordDiag loc msg s), msg. simpl.
  repeat split. rewrite length_app. simpl. lia.
Qed.

(** [emitLValue] aborts at its first statement on anything that is not
    classified as an l-value. *)
Lemma emitLValue_rvalue_kind (E : Expr) (TInfo : TypeInfo) (s : IRState) :
  getValueKind E = RValueKind ->
  emitLValue E TInfo s
  = Fatal (AssertionFailed "E->getValueKind() == ValueKind::LValue").
Proof.
  intros Hkind. destruct E; now with_kind Hkind.
Qed.

Lemma kindsConsistent_never_addressable (E : Expr) :
  neverAddressable (getExprKind E) = true ->
  kindsConsistent E = true ->
  getValueKind E = RValueKind.
Proof.
  unfold kindsConsistent. intros ->. simpl.
  now destruct (getValueKind E).
Qed.

Lemma call_operator_literal_never_addressable (E : Expr) :
  isCallOperatorOrLiteral E = true -> neverAddressable (getExprKind E) = true.
Proof.
  unfold isCallOperatorOrLiteral. now destruct (getExprKind E).
Qed.



(** *** R-value and exploded lowering agree *)

(** C1.  For every integer-literal, float-literal and
    declaration-reference expression, flattening the r-value that
    [emitRValue] returns into a fresh explosion gives exactly the outcome
    of [emitExplodedRValue] on that expression and a fresh explosion:
    the same scalars in the same order, the same context, or the same
    abort. *)
Theorem rvalue_exploded_equivalence (E : Expr) (k : ExplosionKind) (s : IRState) :
  isLiteral E || isDeclRef E = true ->
  (rv <- emitRValue1 E ;;
   explode (getFragileTypeInfo (getType E)) rv (newExplosion k)) s
  = emitExplodedRValue E (newExplosion k) s.
Proof.
  destruct E; simpl; try discriminate; intros _; unfold emitRValue1; simpl.
  - unfold bind, emitIntegerLiteralExpr, assert.
    now destruct (isBuiltinIntegerType (infoType i)).
  - unfold bind, emitFloatLiteralExpr, assert.
    now destruct (isBuiltinFloatType (infoType i)).
  - reflexivity.
Qed.

(** *** Zero initialisation *)

(** C4.  [emitZeroInit] on a type of scalar schema hands the type's
    store operation one r-value holding one null constant per scalar
    slot, in slot order; on a type of aggregate schema it inserts one
    bit-cast of the address and exactly one memset: byte 0, the type's
    storage size as a 64-bit constant (the size itself whenever it is a
    64-bit quantity), the address's alignment, not volatile; it reports
    nothing and never aborts there. *)
Theorem emitZeroInit_by_schema (addr : Address) (type : TypeInfo) (s : IRState) :
  (forall tys, getSchema type = ScalarSchema tys ->
     emitZeroInit addr type s = store type (Scalars (map NullValue tys)) addr s
     /\ Forall2 (fun ty v => v = NullValue ty) tys (map NullValue tys))
  /\
  (forall aggTy, getSchema type = AggregateSchema aggTy ->
     exists s',
       emitZeroInit addr type s = Ok tt s'
       /\ insts s' = insts s ++
            [BitCastInst (getAddress addr) Int8PtrTy;
             MemSetInst (CastValue (getAddress addr) Int8PtrTy)
                        (ConstantInt (mkAPInt 8 0))
                        (getInt64 (StorageSize type))
                        (getAlignment addr) false]
       /\ countMemSets s' = S (countMemSets s)
       /\ diags s' = diags s /\ globals s' = globals s)
  /\
  ((0 <= StorageSize type < 2 ^ 64)%Z ->
     getInt64 (StorageSize type) = ConstantInt (mkAPInt 64 (StorageSize type))).
Proof.
  split; [ | split ]; [ | | intros Hsize; unfold getInt64;
                            now rewrite Z.mod_small by exact Hsize ].
  - intros tys Hschema. split.
    + unfold emitZeroInit. rewrite Hschema. unfold bind.
      rewrite forScalars_fits; [ reflexivity | ].
      rewrite length_map. now apply schema_slots_fit with type.
    + clear Hschema. induction tys as [ | ty tys IH]; simpl; constructor; auto.
  - intros aggTy Hschema.
    unfold emitZeroInit. rewrite Hschema.
    unfold bind, CreateBitCast, CreateMemSet, insert. simpl.
    eexists. split; [ reflexivity | ]. simpl.
    repeat split.
    + now rewrite <- app_assoc.
    + unfold countMemSets. simpl.
      rewrite <- app_assoc, filter_app, length_app. simpl. lia.
Qed.

(** *** Sum-type constructor references *)

(** C5.  A reference to a [OneOfElement] declaration lowers, as an
    r-value, to exactly two scalars: the pointer the injection-function
    lookup answers, then an undefined [i8*] context; the context is the
    one the lookup leaves; the result is never an aggregate address. *)
Theorem oneof_element_rvalue (i : ExprInfo) (D : ValueDecl) (TInfo : TypeInfo)
    (s : IRState) :
  declKind D = DeclKind.OneOfElement ->
  emitDeclRefRValue i D TInfo s
  = Ok (Scalars [fst (getAddrOfInjectionFunction D s); UndefValue Int8PtrTy])
       (snd (getAddrOfInjectionFunction D s))
  /\ emitRValue (DeclRefExpr i D) TInfo s = emitDeclRefRValue i D TInfo s
  /\ forall addr s', emitDeclRefRValue i D TInfo s <> Ok (Aggregate addr) s'.
Proof.
  intros Hkind.
  assert (Hrun : emitDeclRefRValue i D TInfo s
                 = Ok (Scalars [fst (getAddrOfInjectionFunction D s);
                                UndefValue Int8PtrTy])
                      (snd (getAddrOfInjectionFunction D s))).
  { unfold emitDeclRefRValue. rewrite Hkind. unfold bind, lift.
    now destruct (getAddrOfInjectionFunction D s). }
  split; [ exact Hrun | split; [ reflexivity | ] ].
  intros addr s'. rewrite Hrun. discriminate.
Qed.

(** *** The contract of [emitLValue] *)

(** C7.  [emitLValue] requires an expression classified as an l-value: on
    an r-value-kind expression it fails its assertion, and on a literal,
    a load, a tuple shuffle, a function or closure literal, an anonymous
    closure argument, a plain call or a unary or binary operator it runs
    into [llvm_unreachable] even when the node is l-value-kind.  In both
    cases the outcome is an abort, never a result. *)
Theorem emitLValue_contract (E : Expr) (TInfo : TypeInfo) (s : IRState) :
  (getValueKind E = RValueKind ->
     emitLValue E TInfo s
     = Fatal (AssertionFailed "E->getValueKind() == ValueKind::LValue"))
  /\ (getValueKind E = LValueKind -> neverAddressable (getExprKind E) = true ->
        emitLValue E TInfo s
        = Fatal (Unreachable "these expression kinds should never be l-values"))
  /\ (getValueKind E = RValueKind \/ neverAddressable (getExprKind E) = true ->
        isFatal (emitLValue E TInfo s) = true)
  /\ (forall lv s', emitLValue E TInfo s = Ok lv s' -> getValueKind E = LValueKind).
Proof.
  assert (Hnever : getValueKind E = LValueKind ->
                   neverAddressable (getExprKind E) = true ->
                   emitLValue E TInfo s
                   = Fatal (Unreachable
                              "these expression kinds should never be l-values")).
  { intros Hkind Hnever.
    destruct E as [ | | | k | | | | | | | | | ]; try destruct k;
      simpl in Hnever; try discriminate; now with_kind Hkind. }
  split; [ apply emitLValue_rvalue_kind | ].
  split; [ exact Hnever | ].
  split.
  - intros [Hkind | Hk].
    + now rewrite emitLValue_rvalue_kind.
    + destruct (getValueKind E) eqn:Hkind.
      * now rewrite emitLValue_rvalue_kind.
      * now rewrite Hnever.
  - intros lv s' Hok. destruct (getValueKind E) eqn:Hkind; [ | reflexivity ].
    rewrite emitLValue_rvalue_kind in Hok by assumption. discriminate.
Qed.

(** *** Primitive scalars *)

(** C10.  [emitAsPrimitiveScalar] relies on its expression exploding to
    exactly one scalar.  Whatever the expression appends to the fresh
    minimal explosion decides the outcome: one scalar is returned as
    such; none makes [claimNext] underflow; two or more fail the
    emptiness assertion.  An abort of the explosion itself is passed
    on. *)
Theorem emitAsPrimitiveScalar_contract (E : Expr) (s : IRState) :
  (forall explosion s',
     emitExplodedRValue E (newExplosion Minimal) s = Ok explosion s' ->
     match pending explosion with
     | [] => emitAsPrimitiveScalar E s = Fatal ExplosionUnderflow
     | [v] => emitAsPrimitiveScalar E s = Ok v s'
     | _ :: _ :: _ =>
         emitAsPrimitiveScalar E s = Fatal (AssertionFailed "explosion.empty()")
     end)
  /\ (forall f,
        emitExplodedRValue E (newExplosion Minimal) s = Fatal f ->
        emitAsPrimitiveScalar E s = Fatal f).
Proof.
  split.
  - intros explosion s' Hrun.
    unfold emitAsPrimitiveScalar, bind. rewrite Hrun.
    unfold claimNext.
    destruct (pending explosion) as [ | v [ | w rest]]; reflexivity.
  - intros f Hrun. unfold emitAsPrimitiveScalar, bind. now rewrite Hrun.
Qed.

(** *** Error recovery *)


(** *** Grouping parentheses *)

(** C2.  A single-element grouping parenthesis [(e)] lowers exactly as
    [e] does through each entry point: as an r-value, where [emitRValue]
    hands every tuple to [emitTupleExpr] and that recurses into the sole
    element; exploded; and as an l-value, [emitLValue] being called
    within its contract, on a parenthesis classified as an l-value. *)
Theorem grouping_paren_transparent (i : ExprInfo) (e : Expr) (TInfo : TypeInfo)
    (explosion : Explosion) (s : IRState) :
  emitRValue (TupleExpr i true [e]) TInfo s = emitRValue e TInfo s
  /\ emitExplodedRValue (TupleExpr i true [e]) explosion s
     = emitExplodedRValue e explosion s
  /\ (getValueKind (TupleExpr i true [e]) = LValueKind ->
      emitLValue (TupleExpr i true [e]) TInfo s = emitLValue e TInfo s).
Proof.
  split; [ reflexivity | ].
  split; [ reflexivity | ].
  intros Hvk. unfold getValueKind in Hvk. simpl in Hvk.
  simpl. unfold bind at 1 2, assert at 1 2, getValueKind at 1. simpl.
  now rewrite Hvk.
Qed.

(** *** The opportunistic l-value probe *)

Lemma tryEmitAsLValue_lvalue_kind (E : Expr) (type : TypeInfo) (s : IRState) :
  getValueKind E = LValueKind ->
  tryEmitAsLValue E type s = (lv <- emitLValue E type ;; ret (Some lv)) s.
Proof.
  intros Hkind. destruct E; now with_kind Hkind.
Qed.

Lemma bind_Some_inv {A} (m : IRGen A) (s s' : IRState) (a : A) :
  (x <- m ;; ret (Some x)) s = Ok (Some a) s' -> m s = Ok a s'.
Proof.
  unfold bind, ret. destruct (m s) as [a0 s0 | f]; [ | discriminate ].
  now intros [= -> ->].
Qed.

Lemma tryEmitAsLValue_present (E : Expr) (type : TypeInfo) :
  forall s lv s',
    tryEmitAsLValue E type s = Ok (Some lv) s' -> UnwrapsToLValue type s lv s' E.
Proof.
  induction E using Expr_tuple_ind; intros s lv s' Hrun;
    match type of Hrun with
    | tryEmitAsLValue ?E0 _ _ = _ => destruct (getValueKind E0) eqn:Hvk
    end;
    try (rewrite tryEmitAsLValue_lvalue_kind in Hrun by exact Hvk;
         apply unwraps_lvalue_kind; [ exact Hvk | now apply bind_Some_inv ]);
    simpl in Hrun; unfold getValueKind in *; simpl in *; rewrite Hvk in Hrun;
    simpl in Hrun; try discriminate.
  - apply unwraps_load. now apply bind_Some_inv.
  - destruct grouping; [ | discriminate ].
    destruct elements as [ | e0 rest]; [ discriminate | ].
    apply unwraps_grouping.
    match goal with H : Forall _ (_ :: _) |- _ => inversion H; subst end.
    auto.
Qed.

(** C3.  [tryEmitAsLValue] returns a present l-value only when the
    expression is classified as an l-value, or is a load whose
    sub-expression is emitted as an l-value, or is a grouping
    parenthesis around such a form.  For a call, a unary or binary
    operator and an integer or float literal, kinds that are never
    classified as l-values, it returns absent and leaves the context as
    it was; and whatever such a node is tagged with, no l-value ever
    comes back for it. *)
Theorem tryEmitAsLValue_sound (E : Expr) (type : TypeInfo) (s : IRState) :
  (forall lv s', tryEmitAsLValue E type s = Ok (Some lv) s' ->
                 UnwrapsToLValue type s lv s' E)
  /\ (isCallOperatorOrLiteral E = true -> kindsConsistent E = true ->
        tryEmitAsLValue E type s = Ok None s)
  /\ (isCallOperatorOrLiteral E = true ->
        forall lv s', tryEmitAsLValue E type s <> Ok (Some lv) s').
Proof.
  assert (Habsent : isCallOperatorOrLiteral E = true ->
                    getValueKind E = RValueKind ->
                    tryEmitAsLValue E type s = Ok None s).
  { intros Hk Hvk.
    destruct E as [ | | | k | | | | | | | | | ]; try destruct k;
      try discriminate; now with_kind Hvk. }
  assert (Habort : isCallOperatorOrLiteral E = true ->
                   getValueKind E = LValueKind ->
                   tryEmitAsLValue E type s
                   = Fatal (Unreachable
                              "these expression kinds should never be l-values")).
  { intros Hk Hvk. rewrite tryEmitAsLValue_lvalue_kind by exact Hvk.
    destruct E as [ | | | k | | | | | | | | | ]; try destruct k;
      try discriminate; now with_kind Hvk. }
  split; [ apply tryEmitAsLValue_present | split ].
  - intros Hk Hinv. apply Habsent; [ exact Hk | ].
    apply kindsConsistent_never_addressable; [ | exact Hinv ].
    now apply call_operator_literal_never_addressable.
  - intros Hk lv s'. destruct (getValueKind E) eqn:Hvk.
    + rewrite Habsent by auto. discriminate.
    + rewrite Habort by auto. discriminate.
Qed.

(** *** Application forms as l-values *)

(** C6, as the code has it.  Of the application forms requested as an
    l-value, only constructor calls and dot-syntax calls take the
    error-recovery path: one diagnostic and the placeholder l-value.  A
    plain call and a unary or binary operator are a fatal contract
    violation. *)
Theorem apply_as_lvalue (k : Apply.t) (i : ExprInfo) (fn arg : Expr)
    (TInfo : TypeInfo) (s : IRState) :
  infoValueKind i = LValueKind ->
  match k with
  | Apply.ConstructorCall | Apply.DotSyntaxCall =>
      recovered (emitLValue (ApplyExpr k i fn arg) TInfo s) s (infoLoc i)
                (AddressLValue (fakeAddress TInfo))
  | Apply.Call | Apply.Unary | Apply.Binary =>
      emitLValue (ApplyExpr k i fn arg) TInfo s
      = Fatal (Unreachable "these expression kinds should never be l-values")
  end.
Proof.
  intros Hvk.
  destruct k; simpl; unfold bind, assert, unimplemented, ret, getValueKind;
    simpl; rewrite Hvk; simpl;
    first [ reflexivity | apply unimplemented_recovered ].
Qed.

(** *** Loads *)

(** C8.  For a load [load(e)], a kind that is never classified as an
    l-value: as an r-value and exploded it lowers exactly as [e]; it is
    never accepted by [emitLValue]; and [tryEmitAsLValue] returns what
    [emitLValue] makes of [e]: for a reference to a local variable, the
    address of its stack slot. *)
Theorem load_unwraps (i : ExprInfo) (e : Expr) (TInfo : TypeInfo)
    (explosion : Explosion) (s : IRState) :
  emitRValue (LoadExpr i e) TInfo s = emitRValue e TInfo s
  /\ emitExplodedRValue (LoadExpr i e) explosion s
     = emitExplodedRValue e explosion s
  /\ isFatal (emitLValue (LoadExpr i e) TInfo s) = true
  /\ (kindsConsistent (LoadExpr i e) = true ->
      tryEmitAsLValue (LoadExpr i e) TInfo s
      = (lv <- emitLValue e TInfo ;; ret (Some lv)) s)
  /\ (kindsConsistent (LoadExpr i e) = true ->
      forall i' D,
        e = DeclRefExpr i' D -> infoValueKind i' = LValueKind ->
        declKind D = DeclKind.Var -> isLocalContext D = true ->
        tryEmitAsLValue (LoadExpr i e) TInfo s
        = (addr <- getLocal D ;; ret (Some (emitAddressLValue addr))) s).
Proof.
  split; [ reflexivity | ].
  split; [ reflexivity | ].
  split.
  - simpl. unfold bind, assert, getValueKind. simpl.
    now destruct (infoValueKind i).
  - assert (Hprobe : kindsConsistent (LoadExpr i e) = true ->
                     tryEmitAsLValue (LoadExpr i e) TInfo s
                     = (lv <- emitLValue e TInfo ;; ret (Some lv)) s).
    { intros Hinv.
      apply kindsConsistent_never_addressable in Hinv; [ | reflexivity ].
      unfold getValueKind in Hinv. simpl in Hinv.
      simpl. unfold getValueKind. simpl. now rewrite Hinv. }
    split; [ exact Hprobe | ].
    intros Hinv i' D -> Hvk' HD Hlocal.
    rewrite Hprobe by exact Hinv.
    simpl. unfold bind, assert, getValueKind, emitDeclRefLValue. simpl.
    rewrite Hvk', HD, Hlocal. simpl. unfold bind, ret.
    now destruct (getLocal D s).
Qed.

End Properties.

(** ** The properties at work on the sample instance *)

Import Sample.

(** The spec's scenario: the literal [42] of a 32-bit integer type is one
    constant scalar as an r-value, and the sole value of its explosion. *)
Example literal_42_lowering :
  emitRValue1 lit42 start = Ok (Scalars [ConstantInt (mkAPInt 32 42)]) start
  /\ emitExplodedRValue lit42 (newExplosion Minimal) start
     = Ok (mkExplosion Minimal [ConstantInt (mkAPInt 32 42)]) start
  /\ emitAsPrimitiveScalar lit42 start = Ok (ConstantInt (mkAPInt 32 42)) start.
Proof. repeat split. Qed.

(** The spec's scenario: the probe is absent on [3.14] and is [x]'s
    stack slot on [load(x)]. *)
Example probe_scenarios :
  tryEmitAsLValue lit314 (typeInfoOf Float64) start = Ok None start
  /\ tryEmitAsLValue loadX (typeInfoOf Int32) start
     = Ok (Some (AddressLValue (stackSlot x))) start.
Proof. split; reflexivity. Qed.

Lemma rvalue_exploded_equivalence_witness :
  isLiteral lit42 || isDeclRef lit42 = true
  /\ (rv <- emitRValue1 lit42 ;;
      explode (getFragileTypeInfo (getType lit42)) rv (newExplosion Minimal)) start
     = emitExplodedRValue lit42 (newExplosion Minimal) start.
Proof.
  split; [ reflexivity | ].
  apply (rvalue_exploded_equivalence lit42 Minimal start). reflexivity.
Defined.

Lemma emitZeroInit_by_schema_witness :
  (getSchema (typeInfoOf (OtherType 1)) = ScalarSchema [Int8PtrTy; Int8PtrTy]
   /\ emitZeroInit (stackSlot x) (typeInfoOf (OtherType 1)) start
      = store (typeInfoOf (OtherType 1))
              (Scalars [NullValue Int8PtrTy; NullValue Int8PtrTy])
              (stackSlot x) start)
  /\ (getSchema (typeInfoOf (OtherType 5)) = AggregateSchema (NamedTy 5)
      /\ exists s',
           emitZeroInit (stackSlot x) (typeInfoOf (OtherType 5)) start = Ok tt s'
           /\ insts s'
              = [BitCastInst (NamedValue 7) Int8PtrTy;
                 MemSetInst (CastValue (NamedValue 7) Int8PtrTy)
                            (ConstantInt (mkAPInt 8 0))
                            (ConstantInt (mkAPInt 64 24)) 8 false]
           /\ countMemSets s' = 1%nat).
Proof.
  split; (split; [ reflexivity | ]).
  - apply (proj1 (emitZeroInit_by_schema (stackSlot x) (typeInfoOf (OtherType 1))
                                         start)
                 [Int8PtrTy; Int8PtrTy] eq_refl).
  - destruct (proj1 (proj2 (emitZeroInit_by_schema (stackSlot x)
                                                   (typeInfoOf (OtherType 5))
                                                   start))
                    (NamedTy 5) eq_refl)
      as [s' [Hrun [Hinsts [Hcount _]]]].
    exists s'. split; [ exact Hrun | split; [ exact Hinsts | exact Hcount ] ].
Defined.

Lemma oneof_element_rvalue_witness :
  declKind caseA = DeclKind.OneOfElement
  /\ emitDeclRefRValue (rvalue (OtherType 1) 13) caseA (typeInfoOf (OtherType 1))
                       start
     = Ok (Scalars [NamedValue 12; UndefValue Int8PtrTy]) (mkState [] [] [12%nat]).
Proof.
  split; [ reflexivity | ].
  exact (proj1 (oneof_element_rvalue (rvalue (OtherType 1) 13) caseA
                                     (typeInfoOf (OtherType 1)) start eq_refl)).
Defined.

Lemma emitLValue_contract_witness :
  (getValueKind lit42 = RValueKind
   /\ emitLValue lit42 (typeInfoOf Int32) start
      = Fatal (AssertionFailed "E->getValueKind() == ValueKind::LValue"))
  /\ (getValueKind (callF LValueKind) = LValueKind
      /\ neverAddressable (getExprKind (callF LValueKind)) = true
      /\ emitLValue (callF LValueKind) (typeInfoOf Int32) start
         = Fatal (Unreachable "these expression kinds should never be l-values")).
Proof.
  split; (split; [ reflexivity | ]).
  - apply (proj1 (emitLValue_contract lit42 (typeInfoOf Int32) start) eq_refl).
  - split; [ reflexivity | ].
    apply (proj1 (proj2 (emitLValue_contract (callF LValueKind)
                                             (typeInfoOf Int32) start))
                 eq_refl eq_refl).
Defined.

Lemma emitAsPrimitiveScalar_contract_witness :
  (emitExplodedRValue lit42 (newExplosion Minimal) start
   = Ok (mkExplosion Minimal [ConstantInt (mkAPInt 32 42)]) start
   /\ emitAsPrimitiveScalar lit42 start = Ok (ConstantInt (mkAPInt 32 42)) start)
  /\ (emitExplodedRValue (closure (OtherType 0)) (newExplosion Minimal) start
      = Ok (mkExplosion Minimal [])
           (recordDiag 6 "cannot explode r-values for this expression yet" start)
      /\ emitAsPrimitiveScalar (closure (OtherType 0)) start
         = Fatal ExplosionUnderflow)
  /\ (emitExplodedRValue (closure (OtherType 1)) (newExplosion Minimal) start
      = Ok (mkExplosion Minimal [UndefValue Int8PtrTy; UndefValue Int8PtrTy])
           (recordDiag 6 "cannot explode r-values for this expression yet" start)
      /\ emitAsPrimitiveScalar (closure (OtherType 1)) start
         = Fatal (AssertionFailed "explosion.empty()")).
Proof.
  split; [ | split ]; (split; [ reflexivity | ]).
  - exact (proj1 (emitAsPrimitiveScalar_contract lit42 start)
                 (mkExplosion Minimal [ConstantInt (mkAPInt 32 42)]) start
                 eq_refl).
  - exact (proj1 (emitAsPrimitiveScalar_contract (closure (OtherType 0)) start)
                 (mkExplosion Minimal [])
                 (recordDiag 6 "cannot explode r-values for this expression yet"
                             start)
                 eq_refl).
  - exact (proj1 (emitAsPrimitiveScalar_contract (closure (OtherType 1)) start)
                 (mkExplosion Minimal [UndefValue Int8PtrTy; UndefValue Int8PtrTy])
                 (recordDiag 6 "cannot explode r-values for this expression yet"
                             start)
                 eq_refl).
Defined.


Lemma grouping_paren_transparent_witness :
  getValueKind parenX = LValueKind
  /\ emitLValue parenX (typeInfoOf Int32) start
     = emitLValue refX (typeInfoOf Int32) start
  /\ emitLValue parenX (typeInfoOf Int32) start
     = Ok (AddressLValue (stackSlot x)) start.
Proof.
  split; [ reflexivity | split; [ | reflexivity ] ].
  exact (proj2 (proj2 (grouping_paren_transparent
                         (lvalue Int32 5) refX (typeInfoOf Int32)
                         (newExplosion Minimal) start))
               eq_refl).
Defined.

Lemma tryEmitAsLValue_sound_witness :
  (tryEmitAsLValue loadX (typeInfoOf Int32) start
   = Ok (Some (AddressLValue (stackSlot x))) start
   /\ UnwrapsToLValue (typeInfoOf Int32) start (AddressLValue (stackSlot x))
                      start loadX)
  /\ (isCallOperatorOrLiteral lit314 = true
      /\ kindsConsistent lit314 = true
      /\ tryEmitAsLValue lit314 (typeInfoOf Float64) start = Ok None start)
  /\ (isCallOperatorOrLiteral (callF RValueKind) = true
      /\ kindsConsistent (callF RValueKind) = true
      /\ tryEmitAsLValue (callF RValueKind) (typeInfoOf Int32) start = Ok None start
      /\ tryEmitAsLValue (callF RValueKind) (typeInfoOf Int32) start
         <> Ok (Some (AddressLValue (stackSlot x))) start).
Proof.
  split; [ | split ].
  - split; [ reflexivity | ].
    exact (proj1 (tryEmitAsLValue_sound loadX (typeInfoOf Int32) start)
                 (AddressLValue (stackSlot x)) start eq_refl).
  - split; [ reflexivity | split; [ reflexivity | ] ].
    exact (proj1 (proj2 (tryEmitAsLValue_sound lit314 (typeInfoOf Float64) start))
                 eq_refl eq_refl).
  - split; [ reflexivity | split; [ reflexivity | split ] ].
    + exact (proj1 (proj2 (tryEmitAsLValue_sound
                             (callF RValueKind) (typeInfoOf Int32) start))
                   eq_refl eq_refl).
    + exact (proj2 (proj2 (tryEmitAsLValue_sound
                             (callF RValueKind) (typeInfoOf Int32) start))
                   eq_refl (AddressLValue (stackSlot x)) start).
Defined.

Lemma apply_as_lvalue_witness :
  infoValueKind (lvalue (OtherType 5) 9) = LValueKind
  /\ recovered (emitLValue ctorCall (typeInfoOf (OtherType 5)) start) start 9
               (AddressLValue (fakeAddress (typeInfoOf (OtherType 5))))
  /\ emitLValue (callF LValueKind) (typeInfoOf Int32) start
     = Fatal (Unreachable "these expression kinds should never be l-values").
Proof.
  split; [ reflexivity | split ].
  - exact (apply_as_lvalue Apply.ConstructorCall (lvalue (OtherType 5) 9)
                           refX lit42 (typeInfoOf (OtherType 5)) start eq_refl).
  - exact (apply_as_lvalue Apply.Call (mkInfo Int32 LValueKind 8)
                           refX lit42 (typeInfoOf Int32) start eq_refl).
Defined.

Lemma load_unwraps_witness :
  kindsConsistent loadX = true
  /\ tryEmitAsLValue loadX (typeInfoOf Int32) start
     = (lv <- emitLValue refX (typeInfoOf Int32) ;; ret (Some lv)) start
  /\ tryEmitAsLValue loadX (typeInfoOf Int32) start
     = Ok (Some (AddressLValue (stackSlot x))) start.
Proof.
  split; [ reflexivity | split ].
  - exact (proj1 (proj2 (proj2 (proj2 (load_unwraps
                                         (rvalue Int32 4) refX (typeInfoOf Int32)
                                         (newExplosion Minimal) start))))
                 eq_refl).
  - exact (proj2 (proj2 (proj2 (proj2 (load_unwraps
                                         (rvalue Int32 4) refX (typeInfoOf Int32)
                                         (newExplosion Minimal) start))))
                 eq_refl (lvalue Int32 3) x eq_refl eq_refl eq_refl eq_refl).
Defined.

(** *** Where the spec's wording and the code part *)

(** Against C6 as worded: a plain call requested as an l-value is not
    recovered from, it aborts without any diagnostic. *)
Lemma call_as_lvalue_counterexample :
  getValueKind (callF LValueKind) = LValueKind
  /\ emitLValue (callF LValueKind) (typeInfoOf Int32) start
     = Fatal (Unreachable "these expression kinds should never be l-values")
  /\ ~ (exists lv, recovered (emitLValue (callF LValueKind) (typeInfoOf Int32) start)
                             start (getLoc (callF LValueKind)) lv).
Proof.
  split; [ reflexivity | split; [ reflexivity | ] ].
  intros [lv [s' [msg [Hrun _]]]]. discriminate Hrun.
Qed.


(** ** Further properties of the dispatchers *)

Section Further.

Context {MaxScalars : nat} {X : @Externals MaxScalars}.

Local Abbreviation TypeInfo := (@TypeInfo MaxScalars).

Ltac on_kind H :=
  unfold getValueKind in H; simpl in H;
  simpl; unfold bind, assert, getValueKind; simpl;
  rewrite H; simpl.

(** *** The probe *)

Lemma bind_Some_not_None {A} (m : IRGen A) (s s' : IRState) :
  (x <- m ;; ret (Some x)) s <> Ok None s'.
Proof. unfold bind, ret. destruct (m s); discriminate. Qed.

Lemma lvalue_needs_lvalue_kind (E : Expr) (TInfo : TypeInfo) (s s' : IRState)
    (lv : LValue) :
  emitLValue E TInfo s = Ok lv s' -> getValueKind E = LValueKind.
Proof.
  intros Hrun. destruct (getValueKind E) eqn:Hkind; [ | reflexivity ].
  rewrite emitLValue_rvalue_kind in Hrun by exact Hkind. discriminate.
Qed.

Lemma probesAbsent_rvalue_kind (E : Expr) :
  probesAbsent E = true -> getValueKind E = RValueKind.
Proof.
  destruct E; simpl; unfold getValueKind; simpl;
    destruct (infoValueKind i); simpl; auto; discriminate.
Qed.

(** X1.  The probe answers absent exactly on the expressions picked out
    by [probesAbsent], whatever the rest of IRGen does, and then it has
    left the context as it found it. *)
Theorem tryEmitAsLValue_absent_iff (E : Expr) (type : TypeInfo) :
  forall s s',
    tryEmitAsLValue E type s = Ok None s' <-> probesAbsent E = true /\ s' = s.
Proof.
  induction E using Expr_tuple_ind; intros s s';
    match goal with
    | |- tryEmitAsLValue ?E0 _ _ = _ <-> _ =>
        destruct (getValueKind E0) eqn:Hvk
    end;
    try (rewrite tryEmitAsLValue_lvalue_kind by exact Hvk;
         split;
         [ intros Hrun; now apply bind_Some_not_None in Hrun
         | intros [Habs _]; apply probesAbsent_rvalue_kind in Habs; congruence ]);
    unfold getValueKind in Hvk; simpl in Hvk;
    simpl; unfold getValueKind; simpl; rewrite Hvk; simpl;
    try (split; [ intros [= <-]; auto | intros [_ ->]; reflexivity ]);
    try (split; [ discriminate | intros [Hf _]; discriminate ]).
  - split; [ intros Hrun; now apply bind_Some_not_None in Hrun
           | intros [Hf _]; discriminate ].
  - destruct grouping.
    + destruct elements as [ | e0 rest].
      * split; [ discriminate | intros [Hf _]; discriminate ].
      * match goal with H : Forall _ (_ :: _) |- _ => inversion H; subst end.
        auto.
    + split; [ intros [= <-]; auto | intros [_ ->]; reflexivity ].
Qed.

(** X2.  The probe never misses what [emitLValue] accepts: whenever
    [emitLValue] returns an l-value, the probe returns the same l-value
    in the same context. *)
Theorem tryEmitAsLValue_complete (E : Expr) (type : TypeInfo) (s s' : IRState)
    (lv : LValue) :
  emitLValue E type s = Ok lv s' ->
  tryEmitAsLValue E type s = Ok (Some lv) s'.
Proof.
  intros Hrun.
  rewrite tryEmitAsLValue_lvalue_kind by (now apply lvalue_needs_lvalue_kind in Hrun).
  unfold bind, ret. now rewrite Hrun.
Qed.

(** *** Exploded lowering looks through wrappers *)

Lemma peel_isPeeled (E : Expr) : isPeeled (peel E) = true.
Proof.
  induction E using Expr_tuple_ind; simpl; auto.
  destruct grouping; [ | reflexivity ].
  destruct elements as [ | e0 rest]; [ reflexivity | ].
  match goal with H : Forall _ (_ :: _) |- _ => now inversion H end.
Qed.

Lemma peel_fixed (E : Expr) : isPeeled E = true -> peel E = E.
Proof.
  destruct E; simpl; try discriminate; auto.
  destruct grouping; [ | reflexivity ].
  destruct elements; [ reflexivity | discriminate ].
Qed.

Lemma emitExplodedRValue_peel (E : Expr) :
  forall explosion s,
    emitExplodedRValue E explosion s = emitExplodedRValue (peel E) explosion s.
Proof.
  induction E using Expr_tuple_ind; intros explosion s; simpl; auto.
  destruct grouping; [ | reflexivity ].
  destruct elements as [ | e0 rest]; [ reflexivity | ].
  match goal with H : Forall _ (_ :: _) |- _ => inversion H; subst end.
  auto.
Qed.

(** X3.  Exploded lowering sees through any nesting of loads, sum-type
    look-throughs and grouping parentheses: it does to an expression
    exactly what it does to the expression peeled of them, and so does
    [emitAsPrimitiveScalar].  Peeling leaves none of these wrappers at
    the top and peeling twice changes nothing more. *)
Theorem exploded_looks_through (E : Expr) :
  (forall explosion s,
     emitExplodedRValue E explosion s = emitExplodedRValue (peel E) explosion s)
  /\ (forall s, emitAsPrimitiveScalar E s = emitAsPrimitiveScalar (peel E) s)
  /\ isPeeled (peel E) = true
  /\ peel (peel E) = peel E.
Proof.
  split; [ apply emitExplodedRValue_peel | ].
  split; [ intros s; unfold emitAsPrimitiveScalar, bind;
           now rewrite emitExplodedRValue_peel | ].
  split; [ apply peel_isPeeled | ].
  apply peel_fixed, peel_isPeeled.
Qed.

(** X4.  [emitAsPrimitiveScalar] on a literal, however wrapped in loads,
    look-throughs and grouping parentheses, returns the literal's
    constant and leaves the context untouched when the literal has the
    builtin type of its sort; a literal of any other type fails the
    emitter's type assertion. *)
Theorem primitive_scalar_of_literal (E : Expr) (s : IRState) :
  (forall i v, peel E = IntegerLiteralExpr i v ->
     if isBuiltinIntegerType (infoType i)
     then emitAsPrimitiveScalar E s = Ok (ConstantInt v) s
     else emitAsPrimitiveScalar E s
          = Fatal (AssertionFailed "E->getType()->is<BuiltinIntegerType>()"))
  /\ (forall i v, peel E = FloatLiteralExpr i v ->
        if isBuiltinFloatType (infoType i)
        then emitAsPrimitiveScalar E s = Ok (ConstantFP v) s
        else emitAsPrimitiveScalar E s
             = Fatal (AssertionFailed "E->getType()->is<BuiltinFloatType>()")).
Proof.
  split; intros i v Hpeel; unfold emitAsPrimitiveScalar, bind;
    rewrite emitExplodedRValue_peel, Hpeel; simpl;
    unfold bind, emitIntegerLiteralExpr, emitFloatLiteralExpr, assert.
  - now destruct (isBuiltinIntegerType (infoType i)).
  - now destruct (isBuiltinFloatType (infoType i)).
Qed.

(** *** Declaration references *)

(** X5.  For a reference to a variable or an argument, classified as an
    l-value, the r-value is the load of the l-value: [emitRValue] does
    what [emitLValue] followed by [emitLoad] does.  A local variable and
    an argument go through their stack slot, any other variable through
    the module's global. *)
Theorem variable_rvalue_is_load (i : ExprInfo) (D : ValueDecl) (TInfo : TypeInfo)
    (s : IRState) :
  infoValueKind i = LValueKind ->
  isVariable D = true ->
  emitRValue (DeclRefExpr i D) TInfo s
  = (lv <- emitLValue (DeclRefExpr i D) TInfo ;; emitLoad lv TInfo) s
  /\ emitLValue (DeclRefExpr i D) TInfo s
     = (if match declKind D with
           | DeclKind.Arg => true
           | _ => isLocalContext D
           end
        then addr <- getLocal D ;; ret (emitAddressLValue addr)
        else getGlobal D TInfo) s.
Proof.
  intros Hvk Hvar. unfold isVariable in Hvar.
  split.
  - simpl. unfold emitDeclRefRValue, bind at 2, assert, getValueKind. simpl.
    rewrite Hvk. simpl.
    destruct (declKind D); try discriminate; reflexivity.
  - simpl. unfold bind at 1, assert, getValueKind, emitDeclRefLValue. simpl.
    rewrite Hvk. simpl.
    destruct (declKind D); try discriminate; reflexivity.
Qed.

(** X6.  A reference to a declaration that is not a value (an extension,
    an import, a type alias) aborts every emitter, and a reference to a
    function aborts as an l-value while its r-value is left to
    [emitRValueForFunction].  The probe aborts with them on a node
    classified as an l-value and answers absent otherwise. *)
Theorem unaddressable_declarations (i : ExprInfo) (D : ValueDecl)
    (TInfo : TypeInfo) (explosion : Explosion) (s : IRState) :
  (isNotValueDecl D = true ->
     emitRValue (DeclRefExpr i D) TInfo s
     = Fatal (Unreachable "decl is not a value decl")
     /\ emitExplodedRValue (DeclRefExpr i D) explosion s
        = Fatal (Unreachable "decl is not a value decl")
     /\ (infoValueKind i = LValueKind ->
           emitLValue (DeclRefExpr i D) TInfo s
           = Fatal (Unreachable "decl is not a value decl")
           /\ tryEmitAsLValue (DeclRefExpr i D) TInfo s
              = Fatal (Unreachable "decl is not a value decl")))
  /\ (declKind D = DeclKind.Func ->
        emitRValue (DeclRefExpr i D) TInfo s = emitRValueForFunction D s
        /\ (infoValueKind i = LValueKind ->
              emitLValue (DeclRefExpr i D) TInfo s
              = Fatal (Unreachable "decl cannot be emitted as an l-value")
              /\ tryEmitAsLValue (DeclRefExpr i D) TInfo s
                 = Fatal (Unreachable "decl cannot be emitted as an l-value")))
  /\ (infoValueKind i = RValueKind ->
        tryEmitAsLValue (DeclRefExpr i D) TInfo s = Ok None s).
Proof.
  split; [ | split ].
  - intros HD. unfold isNotValueDecl in HD.
    split; [ | split ].
    + simpl. unfold emitDeclRefRValue.
      destruct (declKind D); try discriminate; reflexivity.
    + simpl. unfold emitExplodedDeclRef, emitDeclRefRValue, bind.
      destruct (declKind D); try discriminate; reflexivity.
    + intros Hvk.
      assert (Hl : emitLValue (DeclRefExpr i D) TInfo s
                   = Fatal (Unreachable "decl is not a value decl")).
      { simpl. unfold bind, assert, getValueKind, emitDeclRefLValue. simpl.
        rewrite Hvk. simpl.
        destruct (declKind D); try discriminate; reflexivity. }
      split; [ exact Hl | ].
      rewrite tryEmitAsLValue_lvalue_kind by exact Hvk.
      unfold bind. now rewrite Hl.
  - intros HD. split.
    + simpl. unfold emitDeclRefRValue. now rewrite HD.
    + intros Hvk.
      assert (Hl : emitLValue (DeclRefExpr i D) TInfo s
                   = Fatal (Unreachable "decl cannot be emitted as an l-value")).
      { simpl. unfold bind, assert, getValueKind, emitDeclRefLValue. simpl.
        now rewrite Hvk, HD. }
      split; [ exact Hl | ].
      rewrite tryEmitAsLValue_lvalue_kind by exact Hvk.
      unfold bind. now rewrite Hl.
  - intros Hvk. simpl. unfold getValueKind. simpl. now rewrite Hvk.
Qed.

(** *** Kinds that must not reach IR generation *)

(** X7.  An unchecked expression aborts all four dispatchers.  The
    r-value emitters and the probe stop at the dispatch itself;
    [emitLValue] does so too unless its assertion on the value kind has
    already failed. *)
Theorem unchecked_never_lowers (i : ExprInfo) (id : nat) (TInfo : TypeInfo)
    (explosion : Explosion) (s : IRState) :
  emitRValue (UncheckedExpr i id) TInfo s
  = Fatal (Unreachable "these expression kinds should not survive to IR-gen")
  /\ emitExplodedRValue (UncheckedExpr i id) explosion s
     = Fatal (Unreachable "these expression kinds should not survive to IR-gen")
  /\ tryEmitAsLValue (UncheckedExpr i id) TInfo s
     = Fatal (Unreachable "these expression kinds should not survive to IR-gen")
  /\ emitLValue (UncheckedExpr i id) TInfo s
     = (if isLValueKind (infoValueKind i)
        then Fatal (Unreachable
                      "these expression kinds should not survive to IR-gen")
        else Fatal (AssertionFailed "E->getValueKind() == ValueKind::LValue")).
Proof.
  repeat split; simpl; unfold bind, assert, getValueKind; simpl;
    now destruct (infoValueKind i).
Qed.

(** *** Tuples as l-values *)

(** X8.  A tuple that is not a grouping parenthesis is never an l-value:
    [emitLValue] aborts on it, and the probe answers absent when the
    node is not classified as an l-value and aborts when it is. *)
Theorem true_tuple_is_no_lvalue (i : ExprInfo) (elements : list Expr)
    (TInfo : TypeInfo) (s : IRState) :
  (infoValueKind i = LValueKind ->
     emitLValue (TupleExpr i false elements) TInfo s
     = Fatal (AssertionFailed
                "TE->isGroupingParen() && emitting non-grouping tuple as l-value")
     /\ tryEmitAsLValue (TupleExpr i false elements) TInfo s
        = Fatal (AssertionFailed
                   "TE->isGroupingParen() && emitting non-grouping tuple as l-value"))
  /\ (infoValueKind i = RValueKind ->
        isFatal (emitLValue (TupleExpr i false elements) TInfo s) = true
        /\ tryEmitAsLValue (TupleExpr i false elements) TInfo s = Ok None s).
Proof.
  split; intros Hvk;
    split; simpl; unfold bind, assert, getValueKind; simpl; now rewrite Hvk.
Qed.

(** *** Explosions are only appended to *)

Lemma addAll_appends (ex : Explosion) (vs : list Value) :
  getKind (addAll ex vs) = getKind ex
  /\ exists more, pending (addAll ex vs) = pending ex ++ more.
Proof. split; [ reflexivity | now exists vs ]. Qed.

(** X9.  If the exploded collaborators (applications, tuple literals,
    shuffles, projections) and the aggregate decomposition of the types
    in use only append to the explosion they are given, so does
    [emitExplodedRValue] on every expression: it keeps the explosion's
    kind and every scalar already there, in place. *)
Theorem exploded_only_appends :
  (forall E, AppendsOnly (emitExplodedApplyExpr E)) ->
  (forall E, AppendsOnly (emitExplodedTupleLiteral E)) ->
  (forall E, AppendsOnly (emitExplodedTupleShuffle E)) ->
  (forall E, AppendsOnly (emitExplodedTupleElement E)) ->
  (forall ty addr, AppendsOnly (explodeAggregate (getFragileTypeInfo ty) addr)) ->
  forall E, AppendsOnly (emitExplodedRValue E).
Proof.
  intros Happly Htuple Hshuffle Helement Haggregate.
  induction E using Expr_tuple_ind; intros ex s ex' s' Hrun; simpl in Hrun.
  - unfold bind, emitIntegerLiteralExpr, assert, ret in Hrun.
    destruct (isBuiltinIntegerType (infoType i)); [ | discriminate ].
    injection Hrun as <- _. apply (addAll_appends ex [_]).
  - unfold bind, emitFloatLiteralExpr, assert, ret in Hrun.
    destruct (isBuiltinFloatType (infoType i)); [ | discriminate ].
    injection Hrun as <- _. apply (addAll_appends ex [_]).
  - eauto.
  - eapply Happly; eauto.
  - destruct grouping; [ | eapply Htuple; eauto ].
    destruct elements as [ | e0 rest]; [ discriminate | ].
    match goal with H : Forall _ (_ :: _) |- _ => inversion H; subst end.
    eauto.
  - eapply Helement; eauto.
  - eapply Hshuffle; eauto.
  - eauto.
  - unfold emitExplodedDeclRef, bind in Hrun.
    destruct (emitDeclRefRValue i D (getFragileTypeInfo (infoType i)) s)
      as [rv s1 | ]; [ | discriminate ].
    destruct rv as [vs | addr]; simpl in Hrun.
    + injection Hrun as <- _. apply addAll_appends.
    + eapply Haggregate; eauto.
  - unfold bind, unimplemented, ret in Hrun. injection Hrun as <- _.
    rewrite emitFakeExplosion_addAll. apply addAll_appends.
  - unfold bind, unimplemented, ret in Hrun. injection Hrun as <- _.
    rewrite emitFakeExplosion_addAll. apply addAll_appends.
  - unfold bind, unimplemented, ret in Hrun. injection Hrun as <- _.
    rewrite emitFakeExplosion_addAll. apply addAll_appends.
  - discriminate.
Qed.

(** *** The dispatchers add nothing of their own to the context *)

Section Frame.

Variable R : IRState -> IRState -> Prop.
Hypothesis R_refl : forall s, R s s.
Hypothesis R_trans : forall s1 s2 s3, R s1 s2 -> R s2 s3 -> R s1 s3.
Hypothesis R_diag : forall loc msg s, R s (recordDiag loc msg s).
Hypothesis framed : Framed X R.

Lemma Respects_ret {A} (a : A) : Respects R (ret a).
Proof. intros s a' s' Hrun. inversion Hrun; subst. apply R_refl. Qed.

Lemma Respects_bind {A B} (m : IRGen A) (k : A -> IRGen B) :
  Respects R m -> (forall a, Respects R (k a)) -> Respects R (bind m k).
Proof.
  intros Hm Hk s b s' Hrun. unfold bind in Hrun.
  destruct (m s) as [a s1 | ] eqn:Hfirst; [ | discriminate ].
  eapply R_trans; [ eapply Hm; eauto | eapply Hk; eauto ].
Qed.

Lemma Respects_aborted {A} (f : Failure) : Respects R (fun _ => @Fatal A f).
Proof. intros s a s'. discriminate. Qed.

Lemma Respects_assert (cond : bool) (text : string) :
  Respects R (assert cond text).
Proof.
  intros s a s'. unfold assert. destruct cond; [ | discriminate ].
  intros Hrun. inversion Hrun; subst. apply R_refl.
Qed.

Lemma Respects_unimplemented (loc : SourceLoc) (msg : string) :
  Respects R (unimplemented loc msg).
Proof. intros s a s' Hrun. inversion Hrun; subst. apply R_diag. Qed.

Lemma Respects_emitFakeRValue (TInfo : TypeInfo) :
  Respects R (emitFakeRValue TInfo).
Proof.
  intros s a s'. rewrite emitFakeRValue_placeholder.
  intros Hrun. inversion Hrun; subst. apply R_refl.
Qed.

Lemma Respects_emitDeclRefLValue (i : ExprInfo) (D : ValueDecl)
    (TInfo : TypeInfo) :
  Respects R (emitDeclRefLValue i D TInfo).
Proof.
  unfold emitDeclRefLValue.
  destruct (declKind D); try apply Respects_aborted;
    try (apply Respects_bind;
         [ apply Respects_unimplemented | intros; apply Respects_ret ]);
    try destruct (isLocalContext D);
    try (apply Respects_bind;
         [ apply (framed_getLocal X R framed) | intros; apply Respects_ret ]).
  apply (framed_getGlobal X R framed).
Qed.

Lemma Respects_emitDeclRefRValue (i : ExprInfo) (D : ValueDecl)
    (TInfo : TypeInfo) :
  Respects R (emitDeclRefRValue i D TInfo).
Proof.
  unfold emitDeclRefRValue.
  destruct (declKind D); try apply Respects_aborted.
  - apply (framed_emitRValueForFunction X R framed).
  - apply Respects_bind; [ apply Respects_emitDeclRefLValue | ].
    intros lv. apply (framed_emitLoad X R framed).
  - apply Respects_bind; [ apply Respects_emitDeclRefLValue | ].
    intros lv. apply (framed_emitLoad X R framed).
  - apply Respects_bind;
      [ apply Respects_unimplemented | intros; apply Respects_emitFakeRValue ].
  - apply Respects_bind; [ | intros; apply Respects_ret ].
    intros s fn s'. unfold lift.
    pose proof (framed_getAddrOfInjectionFunction X R framed D s) as Hlookup.
    destruct (getAddrOfInjectionFunction D s).
    intros Hrun. inversion Hrun; subst. exact Hlookup.
Qed.

Lemma Respects_emitRValue (E : Expr) :
  forall TInfo, Respects R (emitRValue E TInfo).
Proof.
  induction E using Expr_tuple_ind; intros TInfo; simpl;
    try apply Respects_aborted;
    try (apply Respects_bind;
         [ apply Respects_unimplemented | intros; apply Respects_emitFakeRValue ]).
  - apply Respects_bind; [ | intros; apply Respects_ret ].
    apply Respects_bind; [ apply Respects_assert | intros; apply Respects_ret ].
  - apply Respects_bind; [ | intros; apply Respects_ret ].
    apply Respects_bind; [ apply Respects_assert | intros; apply Respects_ret ].
  - auto.
  - apply (framed_emitApplyExpr X R framed).
  - unfold emitTupleExpr.
    destruct grouping; [ | apply (framed_emitTupleLiteral X R framed) ].
    destruct elements as [ | e0 rest]; [ apply Respects_aborted | ].
    match goal with H : Forall _ (_ :: _) |- _ => inversion H; subst end.
    auto.
  - apply (framed_emitTupleElementRValue X R framed).
  - apply (framed_emitTupleShuffleExpr X R framed).
  - apply (framed_emitLookThroughOneofRValue X R framed).
  - apply Respects_emitDeclRefRValue.
Qed.

Lemma Respects_emitExplodedRValue (E : Expr) :
  forall explosion, Respects R (emitExplodedRValue E explosion).
Proof.
  induction E using Expr_tuple_ind; intros explosion; simpl;
    try apply Respects_aborted;
    try (apply Respects_bind;
         [ apply Respects_unimplemented | intros; apply Respects_ret ]).
  - apply Respects_bind; [ | intros; apply Respects_ret ].
    apply Respects_bind; [ apply Respects_assert | intros; apply Respects_ret ].
  - apply Respects_bind; [ | intros; apply Respects_ret ].
    apply Respects_bind; [ apply Respects_assert | intros; apply Respects_ret ].
  - auto.
  - apply (framed_emitExplodedApplyExpr X R framed).
  - destruct grouping; [ | apply (framed_emitExplodedTupleLiteral X R framed) ].
    destruct elements as [ | e0 rest]; [ apply Respects_aborted | ].
    match goal with H : Forall _ (_ :: _) |- _ => inversion H; subst end.
    auto.
  - apply (framed_emitExplodedTupleElement X R framed).
  - apply (framed_emitExplodedTupleShuffle X R framed).
  - auto.
  - unfold emitExplodedDeclRef.
    apply Respects_bind; [ apply Respects_emitDeclRefRValue | ].
    intros [vs | addr]; simpl; [ apply Respects_ret | ].
    apply (framed_explodeAggregate X R framed).
Qed.

Lemma Respects_emitLValue (E : Expr) :
  forall TInfo, Respects R (emitLValue E TInfo).
Proof.
  induction E using Expr_tuple_ind; intros TInfo; simpl;
    (apply Respects_bind; [ apply Respects_assert | intros _ ]);
    try apply Respects_aborted.
  - destruct k; try apply Respects_aborted;
      (apply Respects_bind;
       [ apply Respects_unimplemented | intros; apply Respects_ret ]).
  - apply Respects_bind; [ apply Respects_assert | intros _ ].
    destruct elements as [ | e0 rest]; [ apply Respects_aborted | ].
    match goal with H : Forall _ (_ :: _) |- _ => inversion H; subst end.
    auto.
  - apply (framed_emitTupleElementLValue X R framed).
  - apply (framed_emitLookThroughOneofLValue X R framed).
  - apply Respects_emitDeclRefLValue.
Qed.

Lemma Respects_tryEmitAsLValue (E : Expr) :
  forall type, Respects R (tryEmitAsLValue E type).
Proof.
  induction E using Expr_tuple_ind; intros type s a s' Hrun;
    match type of Hrun with
    | tryEmitAsLValue ?E0 _ _ = _ => destruct (getValueKind E0) eqn:Hvk
    end;
    try (rewrite tryEmitAsLValue_lvalue_kind in Hrun by exact Hvk;
         exact (Respects_bind _ _ (Respects_emitLValue _ _)
                              (fun lv => Respects_ret (Some lv)) _ _ _ Hrun));
    unfold getValueKind in Hvk; simpl in Hvk;
    simpl in Hrun; unfold getValueKind in Hrun; simpl in Hrun;
    rewrite Hvk in Hrun; simpl in Hrun;
    try exact (Respects_ret None _ _ _ Hrun);
    try discriminate.
  - exact (Respects_bind _ _ (Respects_emitLValue _ _)
                         (fun lv => Respects_ret (Some lv)) _ _ _ Hrun).
  - destruct grouping; [ | exact (Respects_ret None _ _ _ Hrun) ].
    destruct elements as [ | e0 rest]; [ discriminate | ].
    match goal with H : Forall _ (_ :: _) |- _ => inversion H; subst end.
    match goal with
    | IH : forall t, Respects R (tryEmitAsLValue e0 t) |- _ =>
        exact (IH _ _ _ _ Hrun)
    end.
Qed.

End Frame.

(** X10.  The dispatchers add nothing of their own to the context but
    diagnostics: for any relation on contexts that is reflexive and
    transitive, admits the recording of a diagnostic and is kept by
    every member of the rest of IRGen, each of [emitRValue],
    [emitExplodedRValue], [emitLValue], [tryEmitAsLValue],
    [emitAsPrimitiveScalar] and [emitIgnored] keeps it as well, and so
    does [emitInit] when the type's store operation does. *)
Theorem dispatchers_stay_in_frame (R : IRState -> IRState -> Prop) :
  (forall s, R s s) ->
  (forall s1 s2 s3, R s1 s2 -> R s2 s3 -> R s1 s3) ->
  (forall loc msg s, R s (recordDiag loc msg s)) ->
  Framed X R ->
  forall (E : Expr) (TInfo : TypeInfo) (explosion : Explosion) (addr : Address),
    Respects R (emitRValue E TInfo)
    /\ Respects R (emitExplodedRValue E explosion)
    /\ Respects R (emitLValue E TInfo)
    /\ Respects R (tryEmitAsLValue E TInfo)
    /\ Respects R (emitAsPrimitiveScalar E)
    /\ Respects R (emitIgnored E)
    /\ ((forall rv, Respects R (store TInfo rv addr)) ->
        Respects R (emitInit addr E TInfo)).
Proof.
  intros Hrefl Htrans Hdiag Hframed E TInfo explosion addr.
  split; [ now apply Respects_emitRValue | ].
  split; [ now apply Respects_emitExplodedRValue | ].
  split; [ now apply Respects_emitLValue | ].
  split; [ now apply Respects_tryEmitAsLValue | ].
  split; [ | split ].
  - unfold emitAsPrimitiveScalar.
    apply Respects_bind; [ assumption | now apply Respects_emitExplodedRValue | ].
    intros ex. apply Respects_bind; [ assumption | | ].
    + intros s p s'. unfold claimNext.
      destruct (pending ex); [ discriminate | ].
      intros Hrun. inversion Hrun; subst. apply Hrefl.
    + intros [result ex'].
      apply Respects_bind;
        [ assumption | now apply Respects_assert
        | intros; now apply Respects_ret ].
  - unfold emitIgnored, emitRValue1.
    apply Respects_bind;
      [ assumption | now apply Respects_emitRValue
      | intros; now apply Respects_ret ].
  - intros Hstore. unfold emitInit, emitRValueToMemory.
    apply Respects_bind; [ assumption | now apply Respects_emitRValue | ].
    intros rv. apply Hstore.
Qed.

(** *** Initialising from, and ignoring, what is not implemented *)

(** X11.  Error recovery carries through the memory helpers: on a
    function, closure or anonymous-closure-argument literal, [emitInit]
    records the one diagnostic and then stores the placeholder of the
    type's schema, and [emitIgnored] records the diagnostic and nothing
    else; neither aborts by itself. *)
Theorem unimplemented_in_memory_helpers (addr : Address) (E : Expr)
    (type : TypeInfo) (s : IRState) :
  isClosureLike E = true ->
  emitInit addr E type s
  = store type (placeholder (getSchema type)) addr
          (recordDiag (getLoc E)
                      "cannot generate r-values for this expression yet" s)
  /\ emitIgnored E s
     = Ok tt (recordDiag (getLoc E)
                         "cannot generate r-values for this expression yet" s).
Proof.
  intros Hkind.
  destruct E; simpl in Hkind; try discriminate;
    unfold emitInit, emitRValueToMemory, emitIgnored, emitRValue1; simpl;
    unfold bind, unimplemented; rewrite !emitFakeRValue_placeholder;
    split; reflexivity.
Qed.

(** *** Loads of declaration references, both ways *)

Lemma emitRValue_underLoads (E : Expr) (TInfo : TypeInfo) (s : IRState) :
  emitRValue E TInfo s = emitRValue (underLoads E) TInfo s.
Proof. induction E; simpl; auto. Qed.

Lemma emitExplodedRValue_underLoads (E : Expr) (explosion : Explosion)
    (s : IRState) :
  emitExplodedRValue E explosion s
  = emitExplodedRValue (underLoads E) explosion s.
Proof. induction E; simpl; auto. Qed.

(** X12.  The two r-value paths pick their type differently: [emitRValue]
    takes it from the expression it is given, the exploded path from the
    declaration reference it reaches.  So for a declaration reference
    under any number of loads, flattening what [emitRValue] returns is
    what [emitExplodedRValue] appends, in the same context or with the
    same abort, provided the whole expression has the type of the
    reference. *)
Theorem loaded_reference_both_ways (E : Expr) (i : ExprInfo) (D : ValueDecl)
    (explosion : Explosion) (s : IRState) :
  underLoads E = DeclRefExpr i D ->
  getType E = infoType i ->
  (rv <- emitRValue1 E ;;
   explode (getFragileTypeInfo (getType E)) rv explosion) s
  = emitExplodedRValue E explosion s.
Proof.
  intros Hcore Htype. unfold emitRValue1, bind.
  rewrite emitRValue_underLoads, emitExplodedRValue_underLoads, Hcore, Htype.
  reflexivity.
Qed.

End Further.

(** ** The further properties on the sample instance *)

Lemma grows_refl (s : IRState) : grows s s.
Proof. split; exists []; now rewrite app_nil_r. Qed.

Lemma grows_trans (s1 s2 s3 : IRState) : grows s1 s2 -> grows s2 s3 -> grows s1 s3.
Proof.
  intros [[i1 Hi1] [d1 Hd1]] [[i2 Hi2] [d2 Hd2]]. split.
  - exists (i1 ++ i2). now rewrite Hi2, Hi1, app_assoc.
  - exists (d1 ++ d2). now rewrite Hd2, Hd1, app_assoc.
Qed.

Lemma grows_recordDiag (loc : SourceLoc) (msg : string) (s : IRState) :
  grows s (recordDiag loc msg s).
Proof.
  split; simpl; [ exists []; now rewrite app_nil_r | now eexists ].
Qed.

Lemma grows_insert (i : Instr) (s : IRState) : grows s (insert i s).
Proof.
  split; simpl; [ now eexists | exists []; now rewrite app_nil_r ].
Qed.

Lemma sample_typeInfoOf_explodes (ty : SemType) :
  explodeAggregate (typeInfoOf ty) = passAddress.
Proof. destruct ty as [ | | [ | [ | id]]]; reflexivity. Qed.

Lemma sample_collaborators_append (opcode : nat) :
  AppendsOnly (opaqueExplosion opcode).
Proof.
  intros ex s ex' s' Hrun. unfold opaqueExplosion in Hrun.
  inversion Hrun; subst. split; [ reflexivity | now eexists ].
Qed.

Lemma sample_aggregates_append (ty : SemType) (addr : Value) :
  AppendsOnly (explodeAggregate (getFragileTypeInfo ty) addr).
Proof.
  simpl. rewrite sample_typeInfoOf_explodes.
  intros ex s ex' s' Hrun. unfold passAddress, ret in Hrun.
  inversion Hrun; subst. split; [ reflexivity | now eexists ].
Qed.

Lemma sample_framed : Framed externals grows.
Proof.
  constructor; simpl.
  - intros D s a s' Hrun. inversion Hrun; subst. apply grows_refl.
  - intros D T s a s' Hrun. unfold globalSlot in Hrun. inversion Hrun; subst.
    split; simpl; exists []; now rewrite app_nil_r.
  - intros [addr] T s a s' Hrun. unfold loadFrom in Hrun.
    destruct (getSchema T); inversion Hrun; subst;
      [ apply grows_insert | apply grows_refl ].
  - intros D s a s' Hrun. inversion Hrun; subst. apply grows_refl.
  - intros D s. split; simpl; exists []; now rewrite app_nil_r.
  - intros E T s a s' Hrun. inversion Hrun; subst. apply grows_insert.
  - intros E T s a s' Hrun. inversion Hrun; subst. apply grows_insert.
  - intros E T s a s' Hrun. inversion Hrun; subst. apply grows_insert.
  - intros E T s a s' Hrun. inversion Hrun; subst. apply grows_insert.
  - intros E s a s' Hrun. inversion Hrun; subst. apply grows_insert.
  - intros E ex s a s' Hrun. inversion Hrun; subst. apply grows_insert.
  - intros E ex s a s' Hrun. inversion Hrun; subst. apply grows_insert.
  - intros E ex s a s' Hrun. inversion Hrun; subst. apply grows_insert.
  - intros E ex s a s' Hrun. inversion Hrun; subst. apply grows_insert.
  - intros E T s a s' Hrun. inversion Hrun; subst. apply grows_refl.
  - intros E s a s' Hrun. inversion Hrun; subst. apply grows_refl.
  - intros ty addr ex s a s' Hrun. rewrite sample_typeInfoOf_explodes in Hrun.
    inversion Hrun; subst. apply grows_refl.
Qed.

Lemma tryEmitAsLValue_absent_iff_witness :
  (probesAbsent lit314 = true /\ start = start)
  /\ tryEmitAsLValue lit314 (typeInfoOf Float64) start = Ok None start.
Proof.
  split; [ split; reflexivity | ].
  exact (proj2 (tryEmitAsLValue_absent_iff lit314 (typeInfoOf Float64) start start)
               (conj eq_refl eq_refl)).
Defined.

Lemma tryEmitAsLValue_complete_witness :
  emitLValue parenX (typeInfoOf Int32) start
  = Ok (AddressLValue (stackSlot x)) start
  /\ tryEmitAsLValue parenX (typeInfoOf Int32) start
     = Ok (Some (AddressLValue (stackSlot x))) start.
Proof.
  split; [ reflexivity | ].
  exact (tryEmitAsLValue_complete parenX (typeInfoOf Int32) start start
                                  (AddressLValue (stackSlot x)) eq_refl).
Defined.

Lemma primitive_scalar_of_literal_witness :
  peel wrapped42 = IntegerLiteralExpr (rvalue Int32 1) (mkAPInt 32 42)
  /\ emitAsPrimitiveScalar wrapped42 start = Ok (ConstantInt (mkAPInt 32 42)) start.
Proof.
  split; [ reflexivity | ].
  exact (proj1 (primitive_scalar_of_literal wrapped42 start)
               (rvalue Int32 1) (mkAPInt 32 42) eq_refl).
Defined.

Lemma variable_rvalue_is_load_witness :
  infoValueKind (lvalue Int32 3) = LValueKind
  /\ isVariable x = true
  /\ emitRValue refX (typeInfoOf Int32) start
     = (lv <- emitLValue refX (typeInfoOf Int32) ;; emitLoad lv (typeInfoOf Int32))
         start.
Proof.
  split; [ reflexivity | split; [ reflexivity | ] ].
  exact (proj1 (variable_rvalue_is_load (lvalue Int32 3) x (typeInfoOf Int32) start
                                        eq_refl eq_refl)).
Defined.

Lemma unaddressable_declarations_witness :
  (isNotValueDecl alias = true
   /\ emitRValue (refAlias RValueKind) (typeInfoOf (OtherType 5)) start
      = Fatal (Unreachable "decl is not a value decl"))
  /\ (declKind fdecl = DeclKind.Func
      /\ infoValueKind (lvalue (OtherType 1) 26) = LValueKind
      /\ emitLValue refF (typeInfoOf (OtherType 1)) start
         = Fatal (Unreachable "decl cannot be emitted as an l-value"))
  /\ (infoValueKind (mkInfo (OtherType 5) RValueKind 24) = RValueKind
      /\ tryEmitAsLValue (refAlias RValueKind) (typeInfoOf (OtherType 5)) start
         = Ok None start).
Proof.
  split; [ | split ].
  - split; [ reflexivity | ].
    exact (proj1 (proj1 (unaddressable_declarations
                           (mkInfo (OtherType 5) RValueKind 24) alias
                           (typeInfoOf (OtherType 5)) (newExplosion Minimal) start)
                        eq_refl)).
  - split; [ reflexivity | split; [ reflexivity | ] ].
    exact (proj1 (proj2 (proj1 (proj2 (unaddressable_declarations
                                         (lvalue (OtherType 1) 26) fdecl
                                         (typeInfoOf (OtherType 1))
                                         (newExplosion Minimal) start))
                               eq_refl)
                        eq_refl)).
  - split; [ reflexivity | ].
    exact (proj2 (proj2 (unaddressable_declarations
                           (mkInfo (OtherType 5) RValueKind 24) alias
                           (typeInfoOf (OtherType 5)) (newExplosion Minimal) start))
                 eq_refl).
Defined.

Lemma true_tuple_is_no_lvalue_witness :
  (infoValueKind (mkInfo (OtherType 5) LValueKind 28) = LValueKind
   /\ emitLValue (pair LValueKind) (typeInfoOf (OtherType 5)) start
      = Fatal (AssertionFailed
                 "TE->isGroupingParen() && emitting non-grouping tuple as l-value"))
  /\ (infoValueKind (mkInfo (OtherType 5) RValueKind 28) = RValueKind
      /\ tryEmitAsLValue (pair RValueKind) (typeInfoOf (OtherType 5)) start
         = Ok None start).
Proof.
  split; (split; [ reflexivity | ]).
  - exact (proj1 (proj1 (true_tuple_is_no_lvalue
                           (mkInfo (OtherType 5) LValueKind 28) [lit42; lit42]
                           (typeInfoOf (OtherType 5)) start)
                        eq_refl)).
  - exact (proj2 (proj2 (true_tuple_is_no_lvalue
                           (mkInfo (OtherType 5) RValueKind 28) [lit42; lit42]
                           (typeInfoOf (OtherType 5)) start)
                        eq_refl)).
Defined.

Lemma exploded_only_appends_witness :
  ((forall E, AppendsOnly (emitExplodedApplyExpr (Externals := externals) E))
   /\ (forall E, AppendsOnly (emitExplodedTupleLiteral (Externals := externals) E))
   /\ (forall E, AppendsOnly (emitExplodedTupleShuffle (Externals := externals) E))
   /\ (forall E, AppendsOnly (emitExplodedTupleElement (Externals := externals) E))
   /\ (forall ty addr,
         AppendsOnly (explodeAggregate
                        (getFragileTypeInfo (Externals := externals) ty) addr)))
  /\ AppendsOnly (emitExplodedRValue (X := externals) (callF RValueKind))
  /\ AppendsOnly (emitExplodedRValue (X := externals) refElement).
Proof.
  split.
  - exact (conj (fun _ => sample_collaborators_append 10)
                (conj (fun _ => sample_collaborators_append 11)
                      (conj (fun _ => sample_collaborators_append 13)
                            (conj (fun _ => sample_collaborators_append 12)
                                  sample_aggregates_append)))).
  - split;
      apply (exploded_only_appends (X := externals)
               (fun _ => sample_collaborators_append 10)
               (fun _ => sample_collaborators_append 11)
               (fun _ => sample_collaborators_append 13)
               (fun _ => sample_collaborators_append 12)
               sample_aggregates_append).
Defined.

Lemma dispatchers_stay_in_frame_witness :
  ((forall s, grows s s)
   /\ (forall s1 s2 s3, grows s1 s2 -> grows s2 s3 -> grows s1 s3)
   /\ (forall loc msg s, grows s (recordDiag loc msg s))
   /\ Framed externals grows)
  /\ Respects grows (emitRValue refX (typeInfoOf Int32))
  /\ Respects grows (tryEmitAsLValue loadX (typeInfoOf Int32))
  /\ Respects grows (emitAsPrimitiveScalar (closure (OtherType 1))).
Proof.
  split; [ exact (conj grows_refl
                       (conj grows_trans (conj grows_recordDiag sample_framed))) | ].
  pose proof (dispatchers_stay_in_frame (X := externals) grows grows_refl
                grows_trans grows_recordDiag sample_framed) as Hframe.
  split; [ apply (Hframe refX (typeInfoOf Int32) (newExplosion Minimal)
                         (stackSlot x)) | ].
  split; [ apply (Hframe loadX (typeInfoOf Int32) (newExplosion Minimal)
                         (stackSlot x)) | ].
  apply (Hframe (closure (OtherType 1)) (typeInfoOf Int32) (newExplosion Minimal)
                (stackSlot x)).
Defined.

Lemma unimplemented_in_memory_helpers_witness :
  isClosureLike (closure (OtherType 5)) = true
  /\ emitIgnored (closure (OtherType 5)) start
     = Ok tt (recordDiag 6 "cannot generate r-values for this expression yet" start)
  /\ emitInit (stackSlot x) (closure (OtherType 5)) (typeInfoOf (OtherType 5)) start
     = Ok tt
          (mkState [OtherInst 2 [UndefValue (PointerTo (NamedTy 5)); NamedValue 7]]
                   [mkDiag 6 "cannot generate r-values for this expression yet"]
                   []).
Proof.
  split; [ reflexivity | split ].
  - exact (proj2 (unimplemented_in_memory_helpers
                    (stackSlot x) (closure (OtherType 5))
                    (typeInfoOf (OtherType 5)) start eq_refl)).
  - exact (proj1 (unimplemented_in_memory_helpers
                    (stackSlot x) (closure (OtherType 5))
                    (typeInfoOf (OtherType 5)) start eq_refl)).
Defined.

Lemma loaded_reference_both_ways_witness :
  underLoads loadLoadX = DeclRefExpr (lvalue Int32 3) x
  /\ getType loadLoadX = infoType (lvalue Int32 3)
  /\ (rv <- emitRValue1 loadLoadX ;;
       explode (getFragileTypeInfo (getType loadLoadX)) rv (newExplosion Minimal))
        start
      = emitExplodedRValue loadLoadX (newExplosion Minimal) start.
Proof.
  split; [ reflexivity | split; [ reflexivity | ] ].
  exact (loaded_reference_both_ways loadLoadX (lvalue Int32 3) x
                                    (newExplosion Minimal) start eq_refl eq_refl).
Defined.

(** Why X12 asks for the types to agree: a load typed as an aggregate
    around the integer variable [x] goes through memory as an r-value
    and through a scalar load when exploded. *)
Example loaded_reference_type_matters :
  (rv <- emitRValue1 (LoadExpr (rvalue (OtherType 5) 30) refX) ;;
   explode (getFragileTypeInfo (OtherType 5)) rv (newExplosion Minimal)) start
  <> emitExplodedRValue (LoadExpr (rvalue (OtherType 5) 30) refX)
                        (newExplosion Minimal) start.
Proof. discriminate. Qed.
